(** * rev-sdk-js: the embed lifecycle of [VbrickEmbed]

    A shallow embedding of [src/embed/VbrickEmbed.ts].  The class is
    stateful and asynchronous, so its methods are written in a small
    state-and-exception monad over a [World]: the fields of the embed
    object ([this]), and the parts of the browser the class touches (the
    iframes of the container, the event buses, the promise store, the
    microtask queue, the timers and the list of observable effects).

    One browser task or one promise job is one [Action]; an execution is a
    list of actions applied from the state the constructor leaves. *)

From Stdlib Require Import QArith.
From stdpp Require Import base option list strings gmap.

Set Default Proof Using "Type".
#[local] Set Warnings "-register-all".

(** ** Values *)

(** JavaScript values as far as the embed stores or forwards them.
    Numbers are rationals: the class multiplies one number by 1000 and
    tests one for truthiness, nothing else. *)
Inductive JSValue :=
| VUndefined
| VNull
| VBool (b : bool)
| VNum (q : Q)
| VStr (s : string)
| VArr (xs : list JSValue)
| VObj (o : gmap string JSValue).

(** A plain object, e.g. the metadata of a video or webcast. *)
Abbreviation Obj := (gmap string JSValue).

(** [rev-sdk.d.ts]: [enum PlayerStatus]. *)
Inductive PlayerStatus :=
| Initializing | Playing | Paused | Buffering | Seeking | Ended | Error.

(** [rev-sdk.d.ts]: [enum TokenType]. *)
Inductive TokenType := JWT | ACCESS_TOKEN | GUEST_REGISTRATION.

#[global] Instance PlayerStatus_eq_dec : EqDecision PlayerStatus.
Proof. solve_decision. Defined.
#[global] Instance TokenType_eq_dec : EqDecision TokenType.
Proof. solve_decision. Defined.

(** [rev-sdk.d.ts]: [interface VbrickSDKToken]. *)
Record VbrickSDKToken := {
  type : TokenType;
  value : string;
  issuer : string
}.

(** [rev-sdk.d.ts]: [interface ISubtitles]. *)
Record ISubtitles := {
  language : option string;
  enabled : bool
}.

(** The options of [VbrickEmbedConfig] that [VbrickEmbed] reads. An absent
    option is [None]. *)
Record VbrickEmbedConfig := {
  token : option VbrickSDKToken;
  timeoutSeconds : option Q;
  width : option string;
  height : option string;
  className : option string
}.

(** [rev-sdk.d.ts]: the keys of [TVbrickMessages]. *)
Inductive TVbrickEvent :=
| load | authChanged | error | videoLoaded | playerStatusChanged
| volumeChanged | subtitlesChanged
| playbackSpeedChanged | seeked | currentTime
| webcastLoaded | webcastStarted | broadcastStarted | broadcastStopped
| webcastEnded | layoutChanged | commentAdded | slideChanged
| pollOpened | pollClosed | pollPublished | pollUnpublished.

#[global] Instance TVbrickEvent_eq_dec : EqDecision TVbrickEvent.
Proof. solve_decision. Defined.

(** The events whose payload the embed never looks into. *)
Inductive OpaqueEvent :=
| OPlaybackSpeedChanged | OSeeked | OCurrentTime
| OWebcastStarted | OBroadcastStarted | OBroadcastStopped | OWebcastEnded
| OLayoutChanged | OCommentAdded | OSlideChanged
| OPollOpened | OPollClosed | OPollPublished | OPollUnpublished.

Definition opaque_name (o : OpaqueEvent) : TVbrickEvent :=
  match o with
  | OPlaybackSpeedChanged => playbackSpeedChanged
  | OSeeked => seeked
  | OCurrentTime => currentTime
  | OWebcastStarted => webcastStarted
  | OBroadcastStarted => broadcastStarted
  | OBroadcastStopped => broadcastStopped
  | OWebcastEnded => webcastEnded
  | OLayoutChanged => layoutChanged
  | OCommentAdded => commentAdded
  | OSlideChanged => slideChanged
  | OPollOpened => pollOpened
  | OPollClosed => pollClosed
  | OPollPublished => pollPublished
  | OPollUnpublished => pollUnpublished
  end.

(** A message of the iframe, typed as [TVbrickMessages] types it: the
    event name with the payload of that event. *)
Inductive Message :=
| MLoad
| MAuthChanged
| MError (msg : string)
| MVideoLoaded (e : Obj)
| MPlayerStatusChanged (status : PlayerStatus)
| MVolumeChanged (v : Q)
| MSubtitlesChanged (subtitles : ISubtitles)
| MWebcastLoaded (e : Obj)
| MOpaque (o : OpaqueEvent) (data : JSValue).

Definition event_of (m : Message) : TVbrickEvent :=
  match m with
  | MLoad => load
  | MAuthChanged => authChanged
  | MError _ => error
  | MVideoLoaded _ => videoLoaded
  | MPlayerStatusChanged _ => playerStatusChanged
  | MVolumeChanged _ => volumeChanged
  | MSubtitlesChanged _ => subtitlesChanged
  | MWebcastLoaded _ => webcastLoaded
  | MOpaque o _ => opaque_name o
  end.

Definition status_name (s : PlayerStatus) : string :=
  match s with
  | Initializing => "Initializing" | Playing => "Playing"
  | Paused => "Paused" | Buffering => "Buffering" | Seeking => "Seeking"
  | Ended => "Ended" | Error => "Error"
  end.

Definition subtitles_value (s : ISubtitles) : JSValue :=
  VObj (match language s with
        | Some l => <["language" := VStr l]> {["enabled" := VBool (enabled s)]}
        | None => {["enabled" := VBool (enabled s)]}
        end).

(** The payload of a message as the value a promise is settled with. *)
Definition payload_of (m : Message) : JSValue :=
  match m with
  | MLoad | MAuthChanged => VUndefined
  | MError msg => VObj {["msg" := VStr msg]}
  | MVideoLoaded e | MWebcastLoaded e => VObj e
  | MPlayerStatusChanged s => VObj {["status" := VStr (status_name s)]}
  | MVolumeChanged v => VNum v
  | MSubtitlesChanged s => subtitles_value s
  | MOpaque _ d => d
  end.

(** ** The heap *)

Definition IframeId := nat.
Definition BusId := nat.
Definition PromiseId := nat.
Definition TimerId := nat.

(** A callback of the host page is known by its identity only. *)
Definition ListenerId := nat.

(** The identity of a function value. Two closures made by two
    evaluations of one arrow function are two references. *)
Inductive Ref :=
| RInternal (ev : TVbrickEvent)         (* the arrows of initializeEmbed *)
| RDefer (n : nat)                      (* the arrow made by the n-th on() *)
| RAwait (p : PromiseId) (ok : bool)    (* the one-shot handlers of awaitEvent *)
| RUser (l : ListenerId).               (* a function of the host page *)

#[global] Instance Ref_eq_dec : EqDecision Ref.
Proof. solve_decision. Defined.

(** What a function the embed or the bus made does when it is called with
    a message. A function of the host page is only ever called through the
    arrow [on] wraps it in. *)
Inductive Code :=
| CVideoLoaded
| CWebcastLoaded
| CPlayerStatusChanged
| CSubtitlesChanged
| CDefer (listener : ListenerId)
| CAwait (ok : bool) (p : PromiseId) (s e : TVbrickEvent) (timer : option TimerId).

Record Fn := { fn_ref : Ref; fn_code : Code }.

Record Reg := { reg_event : TVbrickEvent; reg_fn : Fn }.

Record Bus := {
  bus_iframe : IframeId;
  handlers : list Reg;
  bus_destroyed : bool
}.

Record Iframe := {
  frameborder : string;
  allowFullScreen : string;
  allow : string;
  iframe_width : string;
  iframe_height : string;
  src : string;
  iframe_className : string;
  attached : bool
}.

Inductive PState :=
| Pending
| Fulfilled (v : JSValue)
| Rejected (e : JSValue).

(** The reactions the class attaches to promises. [out] is the promise the
    reaction settles: the result of [then], of [catch], or of the async
    function. *)
Inductive Cont :=
| KAll (all : PromiseId) (i : nat)
| KInitThen (timeout : option Q) (out : PromiseId)
| KInitCatch (out : PromiseId)
| KUpdateToken1 (out : PromiseId)
| KUpdateToken2 (out : PromiseId).

Record Promise := {
  pstate : PState;
  reactions : list Cont;
  slots : list (option JSValue)     (* the elements of a Promise.all *)
}.

Inductive TimerCode :=
| TListener (listener : ListenerId) (m : Message) (occ : nat)
| TAwaitTimeout (b : BusId) (p : PromiseId) (s e : TVbrickEvent).

Record Timer := { deadline : Q; tcode : TimerCode }.

(** The fields of the embed object. *)
Record Embed := {
  _playerStatus : PlayerStatus;
  _volume : option Q;
  _currentSubtitles : ISubtitles;
  _info : option Obj;
  iframe : option IframeId;
  iframeUrl : string;
  eventBus : option BusId;
  init : option PromiseId;
  unsubscribes : option (list unit);
  config : VbrickEmbedConfig
}.

(** A message posted to the content window. *)
Inductive Outbound :=
| OutMsg (event : string) (data : JSValue)
| OutError (code : string).

(** What an execution leaves behind, oldest first. *)
Inductive Effect :=
| EAppendIframe (i : IframeId)
| ERemoveIframe (i : IframeId)
| ENewBus (b : BusId) (i : IframeId)
| EOn (b : BusId) (ev : TVbrickEvent) (r : Ref)
| EOff (b : BusId) (ev : TVbrickEvent) (r : Ref)
| EPublish (b : BusId) (event : string) (data : JSValue)
| EPublishError (b : BusId) (code : string)
| EAwaitEvent (b : BusId) (s e : TVbrickEvent) (timeout : option Q) (p : PromiseId)
| EEmitLocalError (b : BusId) (msg : string) (cause : JSValue)
| EDestroyBus (b : BusId)
| EPost (b : BusId) (m : Outbound)
| ERan (b : BusId) (occ : nat) (r : Ref)
| EInvoke (l : ListenerId) (m : Message) (occ : nat) (seen : Embed)
| ELog (msg : string)
| ELogError (msg : string) (err : JSValue).

Record World := {
  embed : Embed;
  iframes : list Iframe;
  buses : list Bus;
  promises : list Promise;
  microtasks : list (Cont * PState);
  timers : list (option Timer);
  now : Q;
  closures : nat;
  occurrences : nat;
  trace : list Effect
}.

(** ** The monad *)

Inductive Res (A : Type) :=
| Ok (a : A)
| Throw (e : JSValue).
Arguments Ok {A} a.
Arguments Throw {A} e.

Definition M (A : Type) : Type := World → Res A * World.

#[global] Instance M_ret : MRet M := λ A a w, (Ok a, w).
#[global] Instance M_bind : MBind M := λ A B f m w,
  match m w with
  | (Ok a, w') => f a w'
  | (Throw e, w') => (Throw e, w')
  end.

Definition throw {A} (e : JSValue) : M A := λ w, (Throw e, w).

(** [try { m } catch (e) { h e }] *)
Definition try_catch {A} (m : M A) (h : JSValue → M A) : M A := λ w,
  match m w with
  | (Ok a, w') => (Ok a, w')
  | (Throw e, w') => h e w'
  end.

Definition gets {A} (f : World → A) : M A := λ w, (Ok (f w), w).
Definition modify (f : World → World) : M unit := λ w, (Ok tt, f w).

Fixpoint for_each {A} (f : A → M unit) (xs : list A) : M unit :=
  match xs with
  | [] => mret tt
  | x :: xs' => f x ;; for_each f xs'
  end.

Definition TypeError (what : string) : JSValue :=
  VObj (<["name" := VStr "TypeError"]> {["message" := VStr what]}).

(** ** Field and heap updates *)

Definition set_embed (f : Embed → Embed) (w : World) : World :=
  {| embed := f (embed w); iframes := iframes w; buses := buses w;
     promises := promises w; microtasks := microtasks w; timers := timers w;
     now := now w; closures := closures w; occurrences := occurrences w;
     trace := trace w |}.

Definition set_iframes (f : list Iframe → list Iframe) (w : World) : World :=
  {| embed := embed w; iframes := f (iframes w); buses := buses w;
     promises := promises w; microtasks := microtasks w; timers := timers w;
     now := now w; closures := closures w; occurrences := occurrences w;
     trace := trace w |}.

Definition set_buses (f : list Bus → list Bus) (w : World) : World :=
  {| embed := embed w; iframes := iframes w; buses := f (buses w);
     promises := promises w; microtasks := microtasks w; timers := timers w;
     now := now w; closures := closures w; occurrences := occurrences w;
     trace := trace w |}.

Definition set_promises (f : list Promise → list Promise) (w : World) : World :=
  {| embed := embed w; iframes := iframes w; buses := buses w;
     promises := f (promises w); microtasks := microtasks w; timers := timers w;
     now := now w; closures := closures w; occurrences := occurrences w;
     trace := trace w |}.

Definition set_microtasks (f : list (Cont * PState) → list (Cont * PState))
    (w : World) : World :=
  {| embed := embed w; iframes := iframes w; buses := buses w;
     promises := promises w; microtasks := f (microtasks w); timers := timers w;
     now := now w; closures := closures w; occurrences := occurrences w;
     trace := trace w |}.

Definition set_timers (f : list (option Timer) → list (option Timer))
    (w : World) : World :=
  {| embed := embed w; iframes := iframes w; buses := buses w;
     promises := promises w; microtasks := microtasks w; timers := f (timers w);
     now := now w; closures := closures w; occurrences := occurrences w;
     trace := trace w |}.

Definition set_now (f : Q → Q) (w : World) : World :=
  {| embed := embed w; iframes := iframes w; buses := buses w;
     promises := promises w; microtasks := microtasks w; timers := timers w;
     now := f (now w); closures := closures w; occurrences := occurrences w;
     trace := trace w |}.

Definition set_closures (f : nat → nat) (w : World) : World :=
  {| embed := embed w; iframes := iframes w; buses := buses w;
     promises := promises w; microtasks := microtasks w; timers := timers w;
     now := now w; closures := f (closures w); occurrences := occurrences w;
     trace := trace w |}.

Definition set_occurrences (f : nat → nat) (w : World) : World :=
  {| embed := embed w; iframes := iframes w; buses := buses w;
     promises := promises w; microtasks := microtasks w; timers := timers w;
     now := now w; closures := closures w; occurrences := f (occurrences w);
     trace := trace w |}.

Definition set_trace (f : list Effect → list Effect) (w : World) : World :=
  {| embed := embed w; iframes := iframes w; buses := buses w;
     promises := promises w; microtasks := microtasks w; timers := timers w;
     now := now w; closures := closures w; occurrences := occurrences w;
     trace := f (trace w) |}.

Definition emit (e : Effect) : M unit := modify (set_trace (λ t, t ++ [e])).

Definition with_playerStatus (s : PlayerStatus) (e : Embed) : Embed :=
  {| _playerStatus := s; _volume := _volume e;
     _currentSubtitles := _currentSubtitles e; _info := _info e;
     iframe := iframe e; iframeUrl := iframeUrl e; eventBus := eventBus e;
     init := init e; unsubscribes := unsubscribes e; config := config e |}.

Definition with_currentSubtitles (s : ISubtitles) (e : Embed) : Embed :=
  {| _playerStatus := _playerStatus e; _volume := _volume e;
     _currentSubtitles := s; _info := _info e;
     iframe := iframe e; iframeUrl := iframeUrl e; eventBus := eventBus e;
     init := init e; unsubscribes := unsubscribes e; config := config e |}.

Definition with_info (i : option Obj) (e : Embed) : Embed :=
  {| _playerStatus := _playerStatus e; _volume := _volume e;
     _currentSubtitles := _currentSubtitles e; _info := i;
     iframe := iframe e; iframeUrl := iframeUrl e; eventBus := eventBus e;
     init := init e; unsubscribes := unsubscribes e; config := config e |}.

Definition with_iframe (i : option IframeId) (e : Embed) : Embed :=
  {| _playerStatus := _playerStatus e; _volume := _volume e;
     _currentSubtitles := _currentSubtitles e; _info := _info e;
     iframe := i; iframeUrl := iframeUrl e; eventBus := eventBus e;
     init := init e; unsubscribes := unsubscribes e; config := config e |}.

Definition with_eventBus (b : option BusId) (e : Embed) : Embed :=
  {| _playerStatus := _playerStatus e; _volume := _volume e;
     _currentSubtitles := _currentSubtitles e; _info := _info e;
     iframe := iframe e; iframeUrl := iframeUrl e; eventBus := b;
     init := init e; unsubscribes := unsubscribes e; config := config e |}.

Definition with_init (p : option PromiseId) (e : Embed) : Embed :=
  {| _playerStatus := _playerStatus e; _volume := _volume e;
     _currentSubtitles := _currentSubtitles e; _info := _info e;
     iframe := iframe e; iframeUrl := iframeUrl e; eventBus := eventBus e;
     init := p; unsubscribes := unsubscribes e; config := config e |}.

Definition with_token (t : option VbrickSDKToken) (e : Embed) : Embed :=
  {| _playerStatus := _playerStatus e; _volume := _volume e;
     _currentSubtitles := _currentSubtitles e; _info := _info e;
     iframe := iframe e; iframeUrl := iframeUrl e; eventBus := eventBus e;
     init := init e; unsubscribes := unsubscribes e;
     config := {| token := t; timeoutSeconds := timeoutSeconds (config e);
                  width := width (config e); height := height (config e);
                  className := className (config e) |} |}.

(** ** Promises, jobs and timers *)

Definition new_promise (st : PState) (n : nat) : M PromiseId :=
  p ← gets (λ w, length (promises w));
  modify (set_promises (λ ps,
    ps ++ [{| pstate := st; reactions := []; slots := replicate n None |}]));;
  mret p.

Definition queue_job (k : Cont) (st : PState) : M unit :=
  modify (set_microtasks (λ q, q ++ [(k, st)])).

(** Attach a reaction: it waits while the promise is pending and becomes a
    job at once when the promise is settled already. *)
Definition add_reaction (p : PromiseId) (k : Cont) : M unit :=
  pr ← gets (λ w, promises w !! p);
  match pr with
  | Some pr =>
      match pstate pr with
      | Pending =>
          modify (set_promises (<[p := {| pstate := Pending;
                                          reactions := reactions pr ++ [k];
                                          slots := slots pr |}]>))
      | st => queue_job k st
      end
  | None => mret tt
  end.

(** Settle a pending promise; a settled promise stays as it is. *)
Definition settle (p : PromiseId) (st : PState) : M unit :=
  pr ← gets (λ w, promises w !! p);
  match pr with
  | Some pr =>
      match pstate pr with
      | Pending =>
          modify (set_promises (<[p := {| pstate := st; reactions := [];
                                          slots := slots pr |}]>));;
          for_each (λ k, queue_job k st) (reactions pr)
      | _ => mret tt
      end
  | None => mret tt
  end.

(** [Promise.all(ps)] *)
Definition promise_all (ps : list PromiseId) : M PromiseId :=
  all ← new_promise (match ps with [] => Fulfilled (VArr []) | _ => Pending end)
                    (length ps);
  for_each (λ ip, add_reaction ip.2 (KAll all ip.1)) (imap pair ps);;
  mret all.

Definition all_element (all : PromiseId) (i : nat) (st : PState) : M unit :=
  match st with
  | Fulfilled v =>
      pr ← gets (λ w, promises w !! all);
      match pr with
      | Some pr =>
          let sl := <[i := Some v]> (slots pr) in
          modify (set_promises (<[all := {| pstate := pstate pr;
                                            reactions := reactions pr;
                                            slots := sl |}]>));;
          match mapM id sl with
          | Some vs => settle all (Fulfilled (VArr vs))
          | None => mret tt
          end
      | None => mret tt
      end
  | Rejected e => settle all (Rejected e)
  | Pending => mret tt
  end.

(** [p.then(f)], [p.catch(f)] and [await p]: a new promise [out] and the
    reaction that settles it. *)
Definition promise_chain (p : PromiseId) (k : PromiseId → Cont) : M PromiseId :=
  out ← new_promise Pending 0;
  add_reaction p (k out);;
  mret out.

(** [setTimeout(f, delay)]; a negative delay counts as none. *)
Definition setTimeout (c : TimerCode) (delay : Q) : M TimerId :=
  t ← gets (λ w, length (timers w));
  modify (λ w, set_timers (λ ts,
    ts ++ [Some {| deadline := if Qle_bool delay 0 then now w
                               else (now w + delay)%Q;
                   tcode := c |}]) w);;
  mret t.

Definition clearTimeout (t : option TimerId) : M unit :=
  match t with
  | Some t => modify (set_timers (<[t := None]>))
  | None => mret tt
  end.

(** ** The event bus

    [src/embed/EventBus.ts] is not among the sources.  The definitions of
    this section follow section 4.1 of the specification. *)

Definition get_bus (b : BusId) : M (option Bus) := gets (λ w, buses w !! b).

Definition update_bus (b : BusId) (f : Bus → Bus) : M unit :=
  modify (set_buses (alter f b)).

Definition with_handlers (f : list Reg → list Reg) (bus : Bus) : Bus :=
  {| bus_iframe := bus_iframe bus; handlers := f (handlers bus);
     bus_destroyed := bus_destroyed bus |}.

Definition add_handler (b : BusId) (ev : TVbrickEvent) (fn : Fn) : M unit :=
  update_bus b (with_handlers (λ hs, hs ++ [{| reg_event := ev; reg_fn := fn |}])).

Fixpoint remove_first (ev : TVbrickEvent) (r : Ref) (hs : list Reg) : list Reg :=
  match hs with
  | [] => []
  | h :: hs' =>
      if decide (reg_event h = ev ∧ fn_ref (reg_fn h) = r) then hs'
      else h :: remove_first ev r hs'
  end.

Definition remove_handler (b : BusId) (ev : TVbrickEvent) (r : Ref) : M unit :=
  update_bus b (with_handlers (remove_first ev r)).

(** Modelled from the spec: the constructor of the absent [EventBus],
    "bound 1:1 to one iframe's content window at construction". *)
Definition EventBus_new (i : IframeId) : M BusId :=
  b ← gets (λ w, length (buses w));
  modify (set_buses (λ bs,
    bs ++ [{| bus_iframe := i; handlers := []; bus_destroyed := false |}]));;
  emit (ENewBus b i);;
  mret b.

(** Modelled from the spec: [EventBus.on] of the absent [EventBus],
    "register a listener for a given event name; multiple listeners per
    name are permitted". *)
Definition bus_on (b : BusId) (ev : TVbrickEvent) (fn : Fn) : M unit :=
  emit (EOn b ev (fn_ref fn));;
  add_handler b ev fn.

(** Modelled from the spec: [EventBus.off] of the absent [EventBus],
    "removal must find the same listener reference previously registered
    (reference equality, not structural equality) and be a no-op if
    absent". *)
Definition bus_off (b : BusId) (ev : TVbrickEvent) (listener : Ref) : M unit :=
  emit (EOff b ev listener);;
  remove_handler b ev listener.

(** Modelled from the spec: the sending half of the absent [EventBus],
    "each publish sends exactly one message to the bound content window";
    after destruction "no further messages are sent outward". *)
Definition post (b : BusId) (m : Outbound) : M unit :=
  bus ← get_bus b;
  match bus with
  | Some bus => if bus_destroyed bus then mret tt else emit (EPost b m)
  | None => mret tt
  end.

(** Modelled from the spec: [EventBus.publish] of the absent [EventBus]. *)
Definition bus_publish (b : BusId) (event : string) (data : JSValue) : M unit :=
  emit (EPublish b event data);;
  post b (OutMsg event data).

(** Modelled from the spec: [EventBus.publishError] of the absent
    [EventBus], "publishes a synthetic error event with a fixed diagnostic
    code". *)
Definition bus_publishError (b : BusId) (code : string) : M unit :=
  emit (EPublishError b code);;
  post b (OutError code).

(** Modelled from the spec: what the absent [EventBus.awaitEvent] rejects
    with when its timer fires; the specification names no value. *)
Definition timeout_error : JSValue := VStr "timeout".

(** Modelled from the spec: [EventBus.awaitEvent] of the absent
    [EventBus], "one-shot registration on both event names plus a timer";
    "if timeoutMs is omitted or zero/undefined, no timeout is applied". *)
Definition bus_awaitEvent (b : BusId) (s e : TVbrickEvent) (timeout : option Q)
    : M PromiseId :=
  p ← new_promise Pending 0;
  emit (EAwaitEvent b s e timeout p);;
  timer ← match timeout with
          | Some ms =>
              if Qeq_bool ms 0 then mret None
              else t ← setTimeout (TAwaitTimeout b p s e) ms; mret (Some t)
          | None => mret None
          end;
  add_handler b s {| fn_ref := RAwait p true; fn_code := CAwait true p s e timer |};;
  add_handler b e {| fn_ref := RAwait p false; fn_code := CAwait false p s e timer |};;
  mret p.

(** Modelled from the spec: the end of a one-shot await, "whichever fires
    first cancels the others (timer is cleared, the non-firing listener is
    removed)". *)
Definition await_cleanup (b : BusId) (p : PromiseId) (s e : TVbrickEvent)
    (timer : option TimerId) : M unit :=
  remove_handler b s (RAwait p true);;
  remove_handler b e (RAwait p false);;
  clearTimeout timer.

(** Modelled from the spec: [EventBus.destroy] of the absent [EventBus],
    "disables further inbound dispatch and outbound publishing";
    idempotent. *)
Definition bus_destroy (b : BusId) : M unit :=
  emit (EDestroyBus b);;
  update_bus b (λ bus, {| bus_iframe := bus_iframe bus; handlers := handlers bus;
                          bus_destroyed := true |}).

(** ** The embed: the arrows of [initializeEmbed] and [on] *)

(** [(e) => { this._info = e; this._playerStatus = PlayerStatus.Paused; }] *)
Definition on_videoLoaded (e : Obj) : M unit :=
  modify (set_embed (with_info (Some e)));;
  modify (set_embed (with_playerStatus Paused)).

(** [({status, ...info}) => { this._info = info; }] *)
Definition on_webcastLoaded (e : Obj) : M unit :=
  let info := delete "status" e in
  modify (set_embed (with_info (Some info))).

(** [e => this._playerStatus = e.status] *)
Definition on_playerStatusChanged (status : PlayerStatus) : M unit :=
  modify (set_embed (with_playerStatus status)).

(** [subtitles => { this._currentSubtitles = subtitles; }] *)
Definition on_subtitlesChanged (subtitles : ISubtitles) : M unit :=
  modify (set_embed (with_currentSubtitles subtitles)).

(** A function of the host page runs: it sees the embed as it is now. *)
Definition invoke (l : ListenerId) (m : Message) (occ : nat) : M unit :=
  seen ← gets embed;
  emit (EInvoke l m occ seen).

(** [(e) => setTimeout(() => listener(e))] *)
Definition deferred (listener : ListenerId) (e : Message) (occ : nat) : M unit :=
  setTimeout (TListener listener e occ) 0;;
  mret tt.

(** Calling a registered function with a message. *)
Definition call_fn (b : BusId) (occ : nat) (m : Message) (fn : Fn) : M unit :=
  match fn_code fn with
  | CVideoLoaded =>
      match m with MVideoLoaded e => on_videoLoaded e | _ => mret tt end
  | CWebcastLoaded =>
      match m with MWebcastLoaded e => on_webcastLoaded e | _ => mret tt end
  | CPlayerStatusChanged =>
      match m with
      | MPlayerStatusChanged status => on_playerStatusChanged status
      | _ => mret tt
      end
  | CSubtitlesChanged =>
      match m with
      | MSubtitlesChanged subtitles => on_subtitlesChanged subtitles
      | _ => mret tt
      end
  | CDefer listener => deferred listener m occ
  | CAwait ok p s e timer =>
      await_cleanup b p s e timer;;
      settle p (if ok then Fulfilled (payload_of m) else Rejected (payload_of m))
  end.

(** Modelled from the spec: the receiving half of the absent [EventBus]:
    a message of the bound window goes to the listeners registered for its
    event name, in the order of registration; after destruction "no further
    messages are dispatched to local listeners". Every call is recorded. *)
Definition dispatch (b : BusId) (m : Message) : M unit :=
  bus ← get_bus b;
  match bus with
  | Some bus =>
      if bus_destroyed bus then mret tt
      else
        occ ← gets occurrences;
        modify (set_occurrences S);;
        for_each (λ r, call_fn b occ m (reg_fn r);;
                       emit (ERan b occ (fn_ref (reg_fn r))))
                 (filter (λ r, reg_event r = event_of m) (handlers bus))
  | None => mret tt
  end.

(** Modelled from the spec: [EventBus.emitLocalError] of the absent
    [EventBus], "triggers purely local error observers (not sent over the
    channel)". *)
Definition bus_emitLocalError (b : BusId) (msg : string) (cause : JSValue) : M unit :=
  emit (EEmitLocalError b msg cause);;
  dispatch b (MError msg).

(** ** The embed: methods *)

(** [this.eventBus.m(...)]: reading a member of [undefined] throws. *)
Definition this_eventBus : M BusId :=
  eb ← gets (λ w, eventBus (embed w));
  match eb with
  | Some b => mret b
  | None => throw (TypeError "this.eventBus is undefined")
  end.

Definition this_iframe : M IframeId :=
  i ← gets (λ w, iframe (embed w));
  match i with
  | Some i => mret i
  | None => throw (TypeError "this.iframe is undefined")
  end.

Definition play : M unit :=
  b ← this_eventBus;
  bus_publish b "playVideo" VUndefined.

Definition pause : M unit :=
  b ← this_eventBus;
  bus_publish b "pauseVideo" VUndefined.

Definition setVolume (volume : Q) : M unit :=
  b ← this_eventBus;
  bus_publish b "setVolume" (VObj {["volume" := VNum volume]}).

Definition setSubtitles (subtitles : ISubtitles) : M unit :=
  b ← this_eventBus;
  bus_publish b "setSubtitles" (subtitles_value subtitles).

(** [x || d] on an optional string: absent and empty are falsy. *)
Definition or_default (x : option string) (d : string) : string :=
  match x with
  | Some s => if decide (s = "") then d else s
  | None => d
  end.

Definition render : M IframeId :=
  cfg ← gets (λ w, config (embed w));
  url ← gets (λ w, iframeUrl (embed w));
  let el := {| frameborder := "0";
               allowFullScreen := "";
               allow := "autoplay";
               iframe_width := or_default (width cfg) "100%";
               iframe_height := or_default (height cfg) "100%";
               src := url;
               iframe_className := or_default (className cfg) "";
               attached := true |} in
  i ← gets (λ w, length (iframes w));
  modify (set_iframes (λ fs, fs ++ [el]));;
  emit (EAppendIframe i);;
  mret i.

(** [iframe.remove()] *)
Definition iframe_remove (i : IframeId) : M unit :=
  modify (set_iframes (alter (λ f,
    {| frameborder := frameborder f; allowFullScreen := allowFullScreen f;
       allow := allow f; iframe_width := iframe_width f;
       iframe_height := iframe_height f; src := src f;
       iframe_className := iframe_className f; attached := false |}) i));;
  emit (ERemoveIframe i).

Definition initializeToken : M PromiseId :=
  tok ← gets (λ w, token (config (embed w)));
  match tok with
  | None => new_promise (Fulfilled VUndefined) 0
  | Some t =>
      if decide (type t ≠ ACCESS_TOKEN)
      then new_promise (Rejected (VStr "Unsupported token type")) 0
      else new_promise (Fulfilled (VObj {["accessToken" := VStr (value t)]})) 0
  end.

Definition initializeEmbed : M unit :=
  b ← this_eventBus;
  bus_on b videoLoaded
    {| fn_ref := RInternal videoLoaded; fn_code := CVideoLoaded |};;
  b ← this_eventBus;
  bus_on b webcastLoaded
    {| fn_ref := RInternal webcastLoaded; fn_code := CWebcastLoaded |};;
  b ← this_eventBus;
  bus_on b playerStatusChanged
    {| fn_ref := RInternal playerStatusChanged; fn_code := CPlayerStatusChanged |};;
  b ← this_eventBus;
  bus_on b subtitlesChanged
    {| fn_ref := RInternal subtitlesChanged; fn_code := CSubtitlesChanged |}.

(** [(this.config.timeoutSeconds * 1000) || undefined]: the product of an
    absent option is NaN, and NaN and 0 are falsy. *)
Definition timeout_ms (seconds : option Q) : option Q :=
  match seconds with
  | Some s => if Qeq_bool (s * 1000) 0 then None else Some (s * 1000)%Q
  | None => None
  end.

(** [([token]) => ...]: the first element of the array. *)
Definition first_element (v : JSValue) : JSValue :=
  match v with
  | VArr (x :: _) => x
  | _ => VUndefined
  end.

(** The function given to [then] in [initialize]. *)
Definition initialize_then (timeout : option Q) (v : JSValue) : M PState :=
  let token := first_element v in
  emit (ELog "embed loaded, authenticating");;
  b ← this_eventBus;
  bus_publish b "authenticated" (VObj {["token" := token]});;
  b ← this_eventBus;
  bus_awaitEvent b authChanged error timeout;;
  mret (Fulfilled VUndefined).

(** The function given to [catch] in [initialize]. *)
Definition initialize_catch (err : JSValue) : M PState :=
  modify (set_embed (with_playerStatus Error));;
  emit (ELogError "Embed initialization error: " err);;
  b ← this_eventBus;
  bus_publishError b "initializationFailed";;
  b ← this_eventBus;
  bus_emitLocalError b "Error loading embed content" err;;
  mret (Rejected err).

Definition initialize : M PromiseId :=
  i ← gets (λ w, init (embed w));
  match i with
  | Some p => mret p
  | None =>
      el ← render;
      modify (set_embed (with_iframe (Some el)));;
      el ← this_iframe;
      b ← EventBus_new el;
      modify (set_embed (with_eventBus (Some b)));;
      initializeEmbed;;
      timeout ← gets (λ w, timeout_ms (timeoutSeconds (config (embed w))));
      p_token ← initializeToken;
      b ← this_eventBus;
      p_load ← bus_awaitEvent b load error timeout;
      p_all ← promise_all [p_token; p_load];
      p_then ← promise_chain p_all (KInitThen timeout);
      p_catch ← promise_chain p_then KInitCatch;
      modify (set_embed (with_init (Some p_catch)));;
      mret p_catch
  end.

Definition on (event : TVbrickEvent) (listener : ListenerId) : M unit :=
  b ← this_eventBus;
  n ← gets closures;
  modify (set_closures S);;
  bus_on b event {| fn_ref := RDefer n; fn_code := CDefer listener |}.

Definition off (event : TVbrickEvent) (listener : ListenerId) : M unit :=
  b ← this_eventBus;
  bus_off b event (RUser listener).

Definition destroy : M unit :=
  i ← this_iframe;
  iframe_remove i;;
  b ← this_eventBus;
  bus_destroy b;;
  modify (set_embed (with_init None));;
  u ← gets (λ w, unsubscribes (embed w));
  match u with
  | Some fns => for_each (λ _, mret tt) fns
  | None => mret tt
  end.

(** The [catch] block of [updateToken]: log and throw again. *)
Definition updateToken_catch (out : PromiseId) (err : JSValue) : M unit :=
  emit (ELogError "Error updating token: " err);;
  settle out (Rejected err).

(** [updateToken] up to its first [await]. [out] is the promise the async
    function returns. *)
Definition updateToken (newToken : VbrickSDKToken) : M PromiseId :=
  out ← new_promise Pending 0;
  modify (set_embed (with_token (Some newToken)));;
  p ← initializeToken;
  add_reaction p (KUpdateToken1 out);;
  mret out.

(** [updateToken] after [await this.initializeToken()]. *)
Definition updateToken_resume1 (out : PromiseId) (st : PState) : M unit :=
  match st with
  | Fulfilled token =>
      try_catch
        (b ← this_eventBus;
         bus_publish b "authChanged" (VObj {["token" := token]});;
         b ← this_eventBus;
         p ← bus_awaitEvent b authChanged error None;
         add_reaction p (KUpdateToken2 out))
        (updateToken_catch out)
  | Rejected err => updateToken_catch out err
  | Pending => mret tt
  end.

(** [updateToken] after [await this.eventBus.awaitEvent(...)]. *)
Definition updateToken_resume2 (out : PromiseId) (st : PState) : M unit :=
  match st with
  | Fulfilled _ => settle out (Fulfilled VUndefined)
  | Rejected err => updateToken_catch out err
  | Pending => mret tt
  end.

(** The constructor. [url] is what the abstract [getEmbedUrl] returns. *)
Definition new_embed (url : string) (cfg : VbrickEmbedConfig) : World :=
  {| embed := {| _playerStatus := Initializing;
                 _volume := None;
                 _currentSubtitles := {| language := None; enabled := false |};
                 _info := None;
                 iframe := None;
                 iframeUrl := url;
                 eventBus := None;
                 init := None;
                 unsubscribes := None;
                 config := cfg |};
     iframes := []; buses := []; promises := []; microtasks := [];
     timers := []; now := 0; closures := 0; occurrences := 0; trace := [] |}.

(** The getters. *)
Definition playerStatus (w : World) : PlayerStatus := _playerStatus (embed w).
Definition volume (w : World) : option Q := _volume (embed w).
Definition currentSubtitles (w : World) : ISubtitles := _currentSubtitles (embed w).
Definition info (w : World) : option Obj := _info (embed w).
Definition isLive (w : World) : option JSValue := info w ≫= λ i, i !! "isLive".

(** ** The query of the iframe URL *)

(** The options of [VbrickEmbedConfig] that only [getEmbedQuery] reads; they
    are fields of the same configuration object. *)
Record VbrickEmbedQueryOptions := {
  popupAuth : option bool;
  accentColor : option string;
  autoplay : option bool;
  forcedCaptions : option bool;
  playInLoop : option bool;
  hideSubtitles : option bool;
  hideOverlayControls : option bool;
  hideChapters : option bool;
  hideFullscreen : option bool;
  hidePlayControls : option bool;
  hideSettings : option bool;
  startAt : option string
}.

Definition optional_bool (x : option bool) : JSValue :=
  match x with Some b => VBool b | None => VUndefined end.

Definition optional_string (x : option string) : JSValue :=
  match x with Some s => VStr s | None => VUndefined end.

(** The object literal [getEmbedQuery] returns, key by key in its order.
    [!!config.token] is true for every token object;
    [!config.token && (config.popupAuth ? 'true' : 'false')] is the boolean
    [false] with a token and one of the two strings without. *)
Definition getEmbedQuery (config : VbrickEmbedConfig)
    (options : VbrickEmbedQueryOptions) : list (string * JSValue) :=
  [ ("tk", VBool (if token config then true else false));
    ("popupAuth",
       match token config with
       | Some _ => VBool false
       | None =>
           VStr (match popupAuth options with
                 | Some true => "true"
                 | _ => "false"
                 end)
       end);
    ("accent", optional_string (accentColor options));
    ("autoplay", optional_bool (autoplay options));
    ("forceClosedCaptions", optional_bool (forcedCaptions options));
    ("loopVideo", optional_bool (playInLoop options));
    ("noCc", optional_bool (hideSubtitles options));
    ("noCenterButtons", optional_bool (hideOverlayControls options));
    ("noChapters", optional_bool (hideChapters options));
    ("noFullscreen", optional_bool (hideFullscreen options));
    ("noPlayBar", optional_bool (hidePlayControls options));
    ("noSettings", optional_bool (hideSettings options));
    ("startAt", optional_string (startAt options)) ].

(** Reading a property of the object. *)
Definition query_get (q : list (string * JSValue)) (k : string) : option JSValue :=
  (λ r, r.2.2) <$> list_find (λ kv, kv.1 = k) q.

(** ** Executions *)

(** [then] and [catch]: the result of the function settles [out]; what it
    throws rejects [out]. *)
Definition settle_with (out : PromiseId) (body : M PState) : M unit :=
  try_catch (st ← body; settle out st) (λ e, settle out (Rejected e)).

Definition run_job (k : Cont) (st : PState) : M unit :=
  match k with
  | KAll all i => all_element all i st
  | KInitThen timeout out =>
      match st with
      | Fulfilled v => settle_with out (initialize_then timeout v)
      | Rejected e => settle out (Rejected e)
      | Pending => mret tt
      end
  | KInitCatch out =>
      match st with
      | Fulfilled v => settle out (Fulfilled v)
      | Rejected err => settle_with out (initialize_catch err)
      | Pending => mret tt
      end
  | KUpdateToken1 out => updateToken_resume1 out st
  | KUpdateToken2 out => updateToken_resume2 out st
  end.

Definition run_timer (c : TimerCode) : M unit :=
  match c with
  | TListener listener m occ => invoke listener m occ
  | TAwaitTimeout b p s e =>
      remove_handler b s (RAwait p true);;
      remove_handler b e (RAwait p false);;
      settle p (Rejected timeout_error)
  end.

Inductive Action :=
| CallInitialize
| CallPlay
| CallPause
| CallSetVolume (volume : Q)
| CallSetSubtitles (subtitles : ISubtitles)
| CallOn (event : TVbrickEvent) (listener : ListenerId)
| CallOff (event : TVbrickEvent) (listener : ListenerId)
| CallDestroy
| CallUpdateToken (newToken : VbrickSDKToken)
| Microtask                               (* the oldest promise job runs *)
| Deliver (b : BusId) (m : Message)       (* the window of bus b sends m *)
| Advance (dt : Q)                        (* time passes *)
| Fire (t : TimerId).                     (* a timer that is due runs *)

Definition step (a : Action) : M unit :=
  match a with
  | CallInitialize => initialize;; mret tt
  | CallPlay => play
  | CallPause => pause
  | CallSetVolume v => setVolume v
  | CallSetSubtitles s => setSubtitles s
  | CallOn ev l => on ev l
  | CallOff ev l => off ev l
  | CallDestroy => destroy
  | CallUpdateToken t => updateToken t;; mret tt
  | Microtask =>
      q ← gets microtasks;
      match q with
      | [] => mret tt
      | (k, st) :: q' => modify (set_microtasks (λ _, q'));; run_job k st
      end
  | Deliver b m => dispatch b m
  | Advance dt =>
      if Qle_bool 0 dt then modify (set_now (λ t, (t + dt)%Q)) else mret tt
  | Fire t =>
      tm ← gets (λ w, timers w !! t);
      match tm with
      | Some (Some tm) =>
          n ← gets now;
          if Qle_bool (deadline tm) n
          then modify (set_timers (<[t := None]>));; run_timer (tcode tm)
          else mret tt
      | _ => mret tt
      end
  end.

(** One action; an exception a call throws goes to the host page, what was
    done before it stays done. *)
Definition exec (a : Action) (w : World) : World := (step a w).2.

Definition run (acts : list Action) (w : World) : World := foldl (λ w a, exec a w) w acts.

(** * Notions used in the statements *)

(** A property of the state that an operation keeps, whether it returns or
    throws. *)
Definition preserves {A} (P : World → Prop) (m : M A) : Prop :=
  ∀ w, P w → P (m w).2.

(** Under [P], the operation returns a value and [Q] holds of the value and
    the state it leaves. *)
Definition hoare {A} (P : World → Prop) (m : M A) (Q : A → World → Prop) : Prop :=
  ∀ w, P w → ∃ a w', m w = (Ok a, w') ∧ Q a w'.

(** Under [P], the operation does not throw. *)
Definition safe {A} (P : World → Prop) (m : M A) : Prop :=
  hoare P m (λ _ _, True).

(** ** The two halves of [initialize] *)

(** Up to [this.initializeEmbed()]: the iframe, the bus and the internal
    listeners. *)
Definition wiring : M unit :=
  el ← render;
  modify (set_embed (with_iframe (Some el)));;
  el ← this_iframe;
  b ← EventBus_new el;
  modify (set_embed (with_eventBus (Some b)));;
  initializeEmbed.

(** From [const timeout] on: the promise of the handshake. *)
Definition handshake : M PromiseId :=
  timeout ← gets (λ w, timeout_ms (timeoutSeconds (config (embed w))));
  p_token ← initializeToken;
  b ← this_eventBus;
  p_load ← bus_awaitEvent b load error timeout;
  p_all ← promise_all [p_token; p_load];
  p_then ← promise_chain p_all (KInitThen timeout);
  p_catch ← promise_chain p_then KInitCatch;
  modify (set_embed (with_init (Some p_catch)));;
  mret p_catch.

Definition wired (w : World) : World := (wiring w).2.

(** The listeners [initializeEmbed] registers, in its order. *)
Definition internal_regs : list Reg :=
  [ {| reg_event := videoLoaded;
       reg_fn := {| fn_ref := RInternal videoLoaded; fn_code := CVideoLoaded |} |};
    {| reg_event := webcastLoaded;
       reg_fn := {| fn_ref := RInternal webcastLoaded; fn_code := CWebcastLoaded |} |};
    {| reg_event := playerStatusChanged;
       reg_fn := {| fn_ref := RInternal playerStatusChanged;
                    fn_code := CPlayerStatusChanged |} |};
    {| reg_event := subtitlesChanged;
       reg_fn := {| fn_ref := RInternal subtitlesChanged;
                    fn_code := CSubtitlesChanged |} |} ].


(** ** Kinds of actions *)

Definition is_initialize (a : Action) : bool :=
  match a with CallInitialize => true | _ => false end.


Definition is_updateToken (a : Action) : bool :=
  match a with CallUpdateToken _ => true | _ => false end.

(** Sample inputs. *)
Definition sample_config : VbrickEmbedConfig :=
  {| token := None; timeoutSeconds := None; width := None; height := None;
     className := None |}.

Definition sample_token (ty : TokenType) : VbrickSDKToken :=
  {| type := ty; value := "abc"; issuer := "vbrick" |}.


(** [initializeToken] resolves: no token, or an access token. *)
Definition token_supported (cfg : VbrickEmbedConfig) : bool :=
  match token cfg with
  | None => true
  | Some t => bool_decide (type t = ACCESS_TOKEN)
  end.

(** The state of promise [p]. *)
Definition promise_state (w : World) (p : PromiseId) : option PState :=
  pstate <$> promises w !! p.


(** ** Internal listeners before external ones *)

(** The events [initializeEmbed] listens to. *)
Definition is_internal (ev : TVbrickEvent) : bool :=
  match ev with
  | videoLoaded | webcastLoaded | playerStatusChanged | subtitlesChanged => true
  | _ => false
  end.

(** Every effect but the call of a function of the host page. *)
Definition not_invoke (e : Effect) : Prop :=
  match e with
  | EInvoke _ _ _ _ => False
  | _ => True
  end.

(** In the trace [tr], the internal listener for the event of [m] (if the
    embed has one) has run for occurrence [occ]. *)
Definition ran_internal (tr : list Effect) (occ : nat) (m : Message) : Prop :=
  is_internal (event_of m) = true →
  ∃ b, ERan b occ (RInternal (event_of m)) ∈ tr.

(** Every call of a function of the host page comes after the run of the
    internal listener for the same occurrence. *)
Definition ordered (tr : list Effect) : Prop :=
  ∀ i l m occ seen,
    tr !! i = Some (EInvoke l m occ seen) → ran_internal (take i tr) occ m.

(** Every bus carries the listeners of [initializeEmbed]. *)
Definition wired_ok (w : World) : Prop :=
  ∀ b bus, buses w !! b = Some bus → ∀ r, r ∈ internal_regs → r ∈ handlers bus.

(** A deferred call waits only for an occurrence whose internal listener
    has run; while an occurrence is being dispatched ([cur] holds it with
    its message), its own deferred calls are exempt. *)
Definition timers_during (cur : option (nat * Message)) (w : World) : Prop :=
  ∀ t dl l m occ,
    timers w !! t = Some (Some {| deadline := dl; tcode := TListener l m occ |}) →
    cur = Some (occ, m) ∨ ran_internal (trace w) occ m.

Definition Inv_during (cur : option (nat * Message)) (w : World) : Prop :=
  wired_ok w ∧ timers_during cur w ∧ ordered (trace w).

(** The invariant of executions, between two actions. *)
Definition Inv (w : World) : Prop := Inv_during None w.

(** Since the trace was [t0], no function of the host page was called. *)
Definition no_invoke_since (t0 : list Effect) (w : World) : Prop :=
  ∃ new, trace w = t0 ++ new ∧ Forall not_invoke new.

(** ** Failure of the handshake *)

(** Since the trace was [t0], the effect [e] has happened. *)
Definition since (t0 : list Effect) (e : Effect) (w : World) : Prop :=
  ∃ new, trace w = t0 ++ new ∧ e ∈ new.


(** The state a failed handshake leaves: the promise of [initialize()]
    rejected with [err], the status [Error], the synthetic error posted to
    the iframe, the local error emitted. *)
Definition failed (b : BusId) (p : PromiseId) (err : JSValue) (w : World) : Prop :=
  promise_state w p = Some (Rejected err) ∧ init (embed w) = Some p ∧
  playerStatus w = Error ∧
  EPost b (OutError "initializationFailed") ∈ trace w ∧
  EEmitLocalError b "Error loading embed content" err ∈ trace w.

(** ** Definitions for the further properties *)

Definition is_fire (a : Action) : bool :=
  match a with Fire _ => true | _ => false end.

Definition is_loaded (a : Action) : bool :=
  match a with
  | Deliver _ (MVideoLoaded _) | Deliver _ (MWebcastLoaded _) => true
  | _ => false
  end.

Definition is_subtitlesChanged (a : Action) : bool :=
  match a with Deliver _ (MSubtitlesChanged _) => true | _ => false end.

(** What [initializeToken] fulfils its promise with. *)
Definition token_payload (tok : option VbrickSDKToken) : JSValue :=
  match tok with
  | None => VUndefined
  | Some t => VObj {["accessToken" := VStr (value t)]}
  end.

(** The state of a fresh embed after a successful handshake: the promise of
    [initialize()] is fulfilled, [authenticated] was posted with the token,
    and the confirmation is awaited by a promise nobody holds. *)
Definition loaded (b : BusId) (tok : option VbrickSDKToken) (ts : option Q)
    (w : World) : Prop :=
  init (embed w) = Some 4 ∧
  promise_state w 4 = Some (Fulfilled VUndefined) ∧
  promise_state w 5 = Some Pending ∧
  playerStatus w = Initializing ∧
  EPost b (OutMsg "authenticated" (VObj {["token" := token_payload tok]})) ∈ trace w ∧
  last (trace w) = Some (EAwaitEvent b authChanged error (timeout_ms ts) 5).

(** Every attached iframe is the current one of an initialized embed. *)
Definition attached_ok (w : World) : Prop :=
  ∀ i f, iframes w !! i = Some f → attached f = true →
         iframe (embed w) = Some i ∧ init (embed w) ≠ None.

Definition none_attached (w : World) : Prop :=
  ∀ i f, iframes w !! i = Some f → attached f = false.

Definition detach (f : Iframe) : Iframe :=
  {| frameborder := frameborder f; allowFullScreen := allowFullScreen f;
     allow := allow f; iframe_width := iframe_width f;
     iframe_height := iframe_height f; src := src f;
     iframe_className := iframe_className f; attached := false |}.

(** A listener registered through [on()]. *)
Definition is_deferred (r : Reg) : bool :=
  match fn_code (reg_fn r) with CDefer _ => true | _ => false end.

(** The state of bus [b]: destroyed or not, and without deferred listeners. *)
Definition bus_fresh (b : BusId) (w : World) : Prop :=
  ∃ bus, buses w !! b = Some bus ∧ bus_destroyed bus = false ∧
         existsb is_deferred (handlers bus) = false.

(** The attributes [render] gives an iframe. *)
Definition rendered (url : string) (cfg : VbrickEmbedConfig) (f : Iframe) : Prop :=
  frameborder f = "0" ∧ allowFullScreen f = "" ∧ allow f = "autoplay" ∧
  iframe_width f = or_default (width cfg) "100%" ∧
  iframe_height f = or_default (height cfg) "100%" ∧
  src f = url ∧ iframe_className f = or_default (className cfg) "".

Definition rendered_ok (url : string) (cfg : VbrickEmbedConfig) (w : World) : Prop :=
  (iframeUrl (embed w) = url ∧ width (config (embed w)) = width cfg ∧
   height (config (embed w)) = height cfg ∧
   className (config (embed w)) = className cfg) ∧
  ∀ i f, iframes w !! i = Some f → rendered url cfg f.

(** What [post] adds to the trace: the message, unless the bus is destroyed. *)
Definition posted (b : BusId) (m : Outbound) (w : World) : list Effect :=
  match buses w !! b with
  | Some bus => if bus_destroyed bus then [] else [EPost b m]
  | None => []
  end.

(** The two fields [initialize] assigns point into the page. *)
Definition fields_ok (w : World) : Prop :=
  (∀ i, iframe (embed w) = Some i → i < length (iframes w)) ∧
  (∀ b, eventBus (embed w) = Some b → b < length (buses w)).
(** * Reasoning about the monad *)

(** ** Properties of the state that an operation keeps *)

Section preserves.
Context (P : World → Prop).

Lemma preserves_ret {A} (a : A) : preserves P (mret a).
Proof. by intros w. Qed.

Lemma preserves_throw {A} (e : JSValue) : preserves P (@throw A e).
Proof. by intros w. Qed.

Lemma preserves_gets {A} (f : World → A) : preserves P (gets f).
Proof. by intros w. Qed.

Lemma preserves_modify (f : World → World) :
  (∀ w, P w → P (f w)) → preserves P (modify f).
Proof. intros Hf w. apply Hf. Qed.

Lemma preserves_bind {A B} (m : M A) (f : A → M B) :
  preserves P m → (∀ a, preserves P (f a)) → preserves P (m ≫= f).
Proof.
  intros Hm Hf w Hw. unfold mbind, M_bind.
  specialize (Hm w Hw). destruct (m w) as [[a|e] w']; simpl in *.
  - by apply Hf.
  - done.
Qed.

Lemma preserves_try_catch {A} (m : M A) (h : JSValue → M A) :
  preserves P m → (∀ e, preserves P (h e)) → preserves P (try_catch m h).
Proof.
  intros Hm Hh w Hw. unfold try_catch.
  specialize (Hm w Hw). destruct (m w) as [[a|e] w']; simpl in *.
  - done.
  - by apply Hh.
Qed.

Lemma preserves_for_each {A} (f : A → M unit) (xs : list A) :
  (∀ x, preserves P (f x)) → preserves P (for_each f xs).
Proof.
  intros Hf. induction xs as [|x xs IH]; simpl.
  - apply preserves_ret.
  - apply preserves_bind; [apply Hf | intros _; apply IH].
Qed.
End preserves.

Lemma preserves_and {A} (P1 P2 : World → Prop) (m : M A) :
  preserves P1 m → preserves P2 m → preserves (λ w, P1 w ∧ P2 w) m.
Proof. intros H1 H2 w [Hw1 Hw2]. split; [by apply H1 | by apply H2]. Qed.

(** Lemmas about whole operations, tried before an operation is broken up. *)
Create HintDb preserves_db discriminated.

(** Facts about one update of the state, for the goals that remain. *)
Create HintDb state_db discriminated.

(** Break an operation into the primitives it is made of. *)
Ltac preserves_head m :=
  lazymatch m with
  | ?f _ _ _ _ _ _ => unfold f
  | ?f _ _ _ _ _ => unfold f
  | ?f _ _ _ _ => unfold f
  | ?f _ _ _ => unfold f
  | ?f _ _ => unfold f
  | ?f _ => unfold f
  | ?f => unfold f
  end.

Ltac preserves_step :=
  first [ solve [auto 1 with preserves_db nocore] | idtac ];
  try progress cbv beta iota;
  lazymatch goal with
  | |- preserves (λ w, _ ∧ _) _ => apply preserves_and
  | |- preserves _ (mbind _ _) => apply preserves_bind; [|intros ?]
  | |- preserves _ (mret _) => apply preserves_ret
  | |- preserves _ (throw _) => apply preserves_throw
  | |- preserves _ (gets _) => apply preserves_gets
  | |- preserves _ (try_catch _ _) => apply preserves_try_catch; [|intros ?]
  | |- preserves _ (for_each _ _) => apply preserves_for_each; intros ?
  | |- preserves _ (modify _) => apply preserves_modify; intros ? ?
  | |- preserves _ (match ?x with _ => _ end) => destruct x
  | |- preserves _ ?m => preserves_head m
  end.

(** ** Operations that return *)

Section hoare.
Context (P : World → Prop).

Lemma hoare_ret {A} (a : A) (Q : A → World → Prop) :
  (∀ w, P w → Q a w) → hoare P (mret a) Q.
Proof. intros H w Hw. exists a, w. split; [done | by apply H]. Qed.

Lemma hoare_gets {A} (f : World → A) (Q : A → World → Prop) :
  (∀ w, P w → Q (f w) w) → hoare P (gets f) Q.
Proof. intros H w Hw. exists (f w), w. split; [done | by apply H]. Qed.

Lemma hoare_modify (f : World → World) (Q : unit → World → Prop) :
  (∀ w, P w → Q tt (f w)) → hoare P (modify f) Q.
Proof. intros H w Hw. exists tt, (f w). split; [done | by apply H]. Qed.

Lemma hoare_bind {A B} (m : M A) (f : A → M B) (R : A → World → Prop)
    (Q : B → World → Prop) :
  hoare P m R → (∀ a, hoare (R a) (f a) Q) → hoare P (m ≫= f) Q.
Proof.
  intros Hm Hf w Hw. destruct (Hm w Hw) as (a & w1 & Hmw & HR).
  destruct (Hf a w1 HR) as (b & w2 & Hfw & HQ).
  exists b, w2. split; [|done]. unfold mbind, M_bind. by rewrite Hmw.
Qed.

(** A stable precondition is carried over an operation that keeps it. *)
Lemma hoare_keep {A} (m : M A) :
  safe P m → preserves P m → hoare P m (λ _, P).
Proof.
  intros Hs Hp w Hw. destruct (Hs w Hw) as (a & w' & Hmw & _).
  exists a, w'. split; [done|]. specialize (Hp w Hw). by rewrite Hmw in Hp.
Qed.

Lemma hoare_bind_keep {A B} (m : M A) (f : A → M B) (Q : B → World → Prop) :
  safe P m → preserves P m → (∀ a, hoare P (f a) Q) → hoare P (m ≫= f) Q.
Proof.
  intros Hs Hp Hf. apply (hoare_bind _ _ (λ _, P)); [by apply hoare_keep | done].
Qed.

Lemma hoare_for_each {A} (f : A → M unit) (xs : list A) :
  (∀ x, safe P (f x)) → (∀ x, preserves P (f x)) →
  hoare P (for_each f xs) (λ _, P).
Proof.
  intros Hs Hp. induction xs as [|x xs IH]; simpl.
  - by apply hoare_ret.
  - apply (hoare_bind _ _ (λ _, P)); [by apply hoare_keep | intros ?; apply IH].
Qed.

Lemma hoare_safe {A} (m : M A) (Q : A → World → Prop) : hoare P m Q → safe P m.
Proof.
  intros H w Hw. destruct (H w Hw) as (a & w' & Hmw & _). by exists a, w'.
Qed.

Lemma safe_for_each {A} (f : A → M unit) (xs : list A) :
  (∀ x, safe P (f x)) → (∀ x, preserves P (f x)) → safe P (for_each f xs).
Proof. intros Hs Hp. eapply hoare_safe. by apply hoare_for_each. Qed.

Lemma safe_try_catch {A} (m : M A) (h : JSValue → M A) :
  preserves P m → (∀ e, safe P (h e)) → safe P (try_catch m h).
Proof.
  intros Hp Hh w Hw. unfold try_catch. specialize (Hp w Hw).
  destruct (m w) as [[a|e] w1]; simpl in *.
  - by exists a, w1.
  - by apply Hh.
Qed.
End hoare.

Lemma hoare_weaken {A} (P P' : World → Prop) (m : M A) (Q Q' : A → World → Prop) :
  hoare P' m Q' → (∀ w, P w → P' w) → (∀ a w, Q' a w → Q a w) → hoare P m Q.
Proof.
  intros H HP HQ w Hw. destruct (H w (HP w Hw)) as (a & w' & Hmw & Hq).
  exists a, w'. split; [done | by apply HQ].
Qed.

(** ** Fields of the embed that nothing, or one method only, assigns *)

Lemma step_keeps_volume (a : Action) :
  preserves (λ w, _volume (embed w) = None) (step a).
Proof. destruct a; repeat preserves_step; done. Qed.

Lemma step_keeps_token (a : Action) (t : option VbrickSDKToken) :
  (∀ t', a ≠ CallUpdateToken t') →
  preserves (λ w, token (config (embed w)) = t) (step a).
Proof.
  intros Ha. destruct a; try (by destruct (Ha newToken));
    repeat preserves_step; done.
Qed.

Lemma step_keeps_iframe_undefined (a : Action) :
  a ≠ CallInitialize →
  preserves (λ w, iframe (embed w) = None) (step a).
Proof. intros Ha. destruct a; try done; repeat preserves_step; done. Qed.

(** [if (this.init) { return this.init; }] *)
Lemma initialize_again (w : World) (p : PromiseId) :
  init (embed w) = Some p → initialize w = (Ok p, w).
Proof.
  intros Hp. unfold initialize, mbind, M_bind, gets. by rewrite Hp.
Qed.


Lemma run_preserves (P : World → Prop) (ok : Action → Prop) (acts : list Action) :
  (∀ a, ok a → preserves P (step a)) →
  Forall ok acts → ∀ w, P w → P (run acts w).
Proof.
  intros Hstep Hacts. induction Hacts as [|a acts Ha _ IH]; intros w Hw.
  - done.
  - simpl. apply IH. by apply Hstep.
Qed.

Lemma run_cons (a : Action) (acts : list Action) (w : World) :
  run (a :: acts) w = run acts (exec a w).
Proof. reflexivity. Qed.



(** ** The two halves of [initialize] *)

Lemma wiring_returns (w : World) : wiring w = (Ok tt, wired w).
Proof. unfold wired. vm_compute. reflexivity. Qed.

Lemma initialize_unfold (w : World) :
  init (embed w) = None → initialize w = handshake (wired w).
Proof.
  intros Hi. unfold initialize, mbind at 1, M_bind at 1, gets at 1.
  rewrite Hi. vm_compute. reflexivity.
Qed.

Lemma alter_last {A} (f : A → A) (l : list A) (x : A) :
  alter f (length l) (l ++ [x]) = l ++ [f x].
Proof.
  induction l as [|y l IH]; simpl; [done|]. f_equal. exact IH.
Qed.

Ltac unfold_wired :=
  unfold wired, wiring, render, this_iframe, EventBus_new, initializeEmbed,
    this_eventBus, bus_on, add_handler, update_bus, emit,
    mbind, M_bind, mret, M_ret, gets, modify;
  cbn -[alter].

Lemma wired_embed (w : World) :
  embed (wired w) =
    with_eventBus (Some (length (buses w)))
      (with_iframe (Some (length (iframes w))) (embed w)).
Proof. unfold_wired. reflexivity. Qed.

Lemma wired_buses (w : World) :
  buses (wired w) =
    buses w ++ [{| bus_iframe := length (iframes w); handlers := internal_regs;
                   bus_destroyed := false |}].
Proof.
  unfold_wired. by rewrite !alter_last.
Qed.

Lemma wired_trace (w : World) :
  trace (wired w) =
    trace w ++ [EAppendIframe (length (iframes w));
                ENewBus (length (buses w)) (length (iframes w));
                EOn (length (buses w)) videoLoaded (RInternal videoLoaded);
                EOn (length (buses w)) webcastLoaded (RInternal webcastLoaded);
                EOn (length (buses w)) playerStatusChanged
                  (RInternal playerStatusChanged);
                EOn (length (buses w)) subtitlesChanged
                  (RInternal subtitlesChanged)].
Proof. unfold_wired. by rewrite <- !app_assoc. Qed.

Lemma wired_rest (w : World) :
  promises (wired w) = promises w ∧ microtasks (wired w) = microtasks w ∧
  timers (wired w) = timers w ∧ now (wired w) = now w ∧
  closures (wired w) = closures w ∧ occurrences (wired w) = occurrences w.
Proof. unfold_wired. done. Qed.

(** ** Operations that do not throw *)

Lemma safe_this_eventBus (P : World → Prop) :
  (∀ w, P w → eventBus (embed w) ≠ None) → safe P this_eventBus.
Proof.
  intros H w Hw. specialize (H w Hw). unfold this_eventBus, mbind, M_bind, gets.
  destruct (eventBus (embed w)) as [b|]; [|done]. by exists b, w.
Qed.

Lemma safe_this_iframe (P : World → Prop) :
  (∀ w, P w → iframe (embed w) ≠ None) → safe P this_iframe.
Proof.
  intros H w Hw. specialize (H w Hw). unfold this_iframe, mbind, M_bind, gets.
  destruct (iframe (embed w)) as [b|]; [|done]. by exists b, w.
Qed.

Ltac preserves_solve :=
  repeat preserves_step; try done; try (solve [auto 2 with state_db nocore]).

Ltac safe_step :=
  unfold safe;
  lazymatch goal with
  | |- hoare _ this_eventBus _ => apply safe_this_eventBus
  | |- hoare _ this_iframe _ => apply safe_this_iframe
  | |- hoare _ (mbind _ _) _ =>
      apply hoare_bind_keep; [ | preserves_solve | intros ?]
  | |- hoare _ (mret _) _ => by apply hoare_ret
  | |- hoare _ (gets _) _ => by apply hoare_gets
  | |- hoare _ (modify _) _ => by apply hoare_modify
  | |- hoare _ (for_each _ _) _ =>
      apply safe_for_each; [intros ? | intros ?; preserves_solve]
  | |- hoare _ (try_catch _ _) _ =>
      apply safe_try_catch; [preserves_solve | intros ?]
  | |- hoare _ (match ?x with _ => _ end) _ => destruct x
  | |- hoare _ ?m _ => preserves_head m
  end.

Ltac safe_solve := repeat safe_step.

(** [initialize] never throws, and leaves [init] assigned. *)
Lemma initialize_returns (w : World) :
  ∃ p, (initialize w).1 = Ok p ∧ init (embed (initialize w).2) = Some p.
Proof.
  destruct (init (embed w)) as [p|] eqn:Hi.
  - exists p. by rewrite (initialize_again w p Hi).
  - rewrite (initialize_unfold w Hi).
    set (P := λ w : World, eventBus (embed w) ≠ None).
    assert (hoare P handshake (λ p w', init (embed w') = Some p)) as H.
    { unfold handshake.
      do 7 (apply hoare_bind_keep;
            [safe_solve; by subst P | preserves_solve | intros ?]).
      lazymatch goal with
      | |- hoare _ (modify (set_embed (with_init (Some ?p))) ≫= _) _ =>
          apply (hoare_bind _ _ _ (λ _ w', init (embed w') = Some p))
      end; [by apply hoare_modify | intros ?; by apply hoare_ret]. }
    destruct (H (wired w)) as (p & w' & Heq & Hp);
      [by unfold P; rewrite wired_embed|].
    exists p. by rewrite Heq.
Qed.







Lemma run_preserves_bool (P : World → Prop) (bad : Action → bool)
    (acts : list Action) :
  (∀ a, bad a = false → preserves P (step a)) →
  existsb bad acts = false → ∀ w, P w → P (run acts w).
Proof.
  intros Hstep. induction acts as [|a acts IH]; simpl; intros Hb w Hw.
  - done.
  - apply orb_false_elim in Hb as [Ha Hb]. apply IH; [done|]. by apply Hstep.
Qed.

(** After the first half of [initialize] the iframe and the bus are there,
    and the second half keeps them. *)
Lemma initialize_fields (w : World) :
  init (embed w) = None →
  iframe (embed (initialize w).2) = Some (length (iframes w)) ∧
  eventBus (embed (initialize w).2) = Some (length (buses w)).
Proof.
  intros Hi. rewrite (initialize_unfold w Hi).
  assert (preserves (λ w', iframe (embed w') = Some (length (iframes w)) ∧
                           eventBus (embed w') = Some (length (buses w)))
            handshake) as H by (unfold handshake; preserves_solve).
  apply H. by rewrite wired_embed.
Qed.

Lemma destroy_returns (w : World) (i : IframeId) (b : BusId) :
  iframe (embed w) = Some i → eventBus (embed w) = Some b →
  (destroy w).1 = Ok tt ∧
  iframe (embed (destroy w).2) = Some i ∧ eventBus (embed (destroy w).2) = Some b.
Proof.
  intros Hi Hb.
  set (P := λ w : World, iframe (embed w) = Some i ∧ eventBus (embed w) = Some b).
  assert (hoare P destroy (λ _, P)) as H.
  { apply hoare_keep.
    - safe_solve; intros ? [? ?]; congruence.
    - unfold P. preserves_solve. }
  destruct (H w) as ([] & w' & Heq & Hw'); [done|]. by rewrite Heq.
Qed.

(** ** A handshake without timeout *)




(** ** Settling a promise *)

Lemma for_each_queue_job (P : World → Prop) (st : PState) (ks : list Cont) :
  (∀ w f, P w → P (set_microtasks f w)) →
  preserves P (for_each (λ k, queue_job k st) ks).
Proof.
  intros HP. apply preserves_for_each. intros k. unfold queue_job.
  apply preserves_modify. intros w. apply HP.
Qed.

Lemma settle_unfold (w : World) (p : PromiseId) (st : PState) (pr : Promise) :
  promises w !! p = Some pr → pstate pr = Pending →
  settle p st w =
    for_each (λ k, queue_job k st) (reactions pr)
      (set_promises (<[p := {| pstate := st; reactions := [];
                               slots := slots pr |}]>) w).
Proof.
  intros Hpr Hp. unfold settle, mbind, M_bind, gets. by rewrite Hpr, Hp.
Qed.

Lemma settle_settled (w : World) (p : PromiseId) (st : PState) :
  promise_state w p ≠ Some Pending → settle p st w = (Ok tt, w).
Proof.
  unfold promise_state, settle, mbind, M_bind, gets. intros Hp.
  destruct (promises w !! p) as [pr|]; [|done].
  simpl in Hp. by destruct (pstate pr).
Qed.

Lemma settle_pending (w : World) (p : PromiseId) (st : PState) :
  promise_state w p = Some Pending →
  (settle p st w).1 = Ok tt ∧
  promise_state (settle p st w).2 p = Some st ∧
  embed (settle p st w).2 = embed w ∧ trace (settle p st w).2 = trace w ∧
  buses (settle p st w).2 = buses w ∧ timers (settle p st w).2 = timers w.
Proof.
  unfold promise_state. intros Hp.
  destruct (promises w !! p) as [pr|] eqn:Hpr; [|done].
  simpl in Hp. injection Hp as Hp.
  rewrite (settle_unfold w p st pr Hpr Hp).
  set (w1 := set_promises _ w).
  assert (hoare (λ w', promise_state w' p = Some st ∧ embed w' = embed w ∧
                       trace w' = trace w ∧ buses w' = buses w ∧
                       timers w' = timers w)
            (for_each (λ k, queue_job k st) (reactions pr))
            (λ _ w', promise_state w' p = Some st ∧ embed w' = embed w ∧
                     trace w' = trace w ∧ buses w' = buses w ∧
                     timers w' = timers w)) as H.
  { apply hoare_for_each; intros k; [safe_solve | preserves_solve]. }
  destruct (H w1) as ([] & w2 & Heq & Hw2).
  - subst w1. unfold promise_state. simpl.
    rewrite list_lookup_insert_eq; [by repeat split|]. by eapply lookup_lt_Some.
  - rewrite Heq. simpl. by split.
Qed.

(** ** The state of a promise is kept by what does not settle it *)

Lemma promise_state_alloc (w : World) (p : PromiseId) (st : PState) (new : Promise) :
  promise_state w p = Some st →
  promise_state (set_promises (λ ps, ps ++ [new]) w) p = Some st.
Proof.
  unfold promise_state. simpl. intros H.
  destruct (promises w !! p) as [pr|] eqn:Hpr; [|done].
  by rewrite (lookup_app_l_Some _ _ _ _ Hpr).
Qed.

#[export] Hint Resolve promise_state_alloc : state_db.

Lemma new_promise_keeps_state (p : PromiseId) (st st' : PState) (n : nat) :
  preserves (λ w, promise_state w p = Some st) (new_promise st' n).
Proof.
  unfold new_promise. repeat preserves_step. by apply promise_state_alloc.
Qed.

Lemma add_reaction_keeps_state (p q : PromiseId) (st : PState) (k : Cont) :
  preserves (λ w, promise_state w p = Some st) (add_reaction q k).
Proof.
  intros w Hw. unfold add_reaction, mbind, M_bind, gets.
  destruct (promises w !! q) as [pr|] eqn:Hq; [|done].
  destruct (pstate pr) eqn:Hst; try done.
  unfold promise_state in *. simpl.
  destruct (decide (p = q)) as [->|Hne].
  - rewrite list_lookup_insert_eq; [|by eapply lookup_lt_Some].
    rewrite Hq in Hw. simpl in *. congruence.
  - by rewrite list_lookup_insert_ne.
Qed.

#[export] Hint Resolve new_promise_keeps_state add_reaction_keeps_state
  : preserves_db.

Lemma step_keeps_token_bool (a : Action) (t : option VbrickSDKToken) :
  is_updateToken a = false →
  preserves (λ w, token (config (embed w)) = t) (step a).
Proof. intros Ha. apply step_keeps_token. intros t' ->. done. Qed.

(** [updateToken] up to its first [await]: the token is stored, and nothing
    has been published or awaited yet. *)
Lemma updateToken_sync (w : World) (T : VbrickSDKToken) :
  ∃ w1, updateToken T w = (Ok (length (promises w)), w1) ∧
        token (config (embed w1)) = Some T ∧
        trace w1 = trace w ∧ buses w1 = buses w ∧ timers w1 = timers w ∧
        promise_state w1 (length (promises w)) = Some Pending.
Proof.
  set (out := length (promises w)).
  set (P := λ w' : World,
         (token (config (embed w')) = Some T ∧ trace w' = trace w) ∧
         (buses w' = buses w ∧ timers w' = timers w) ∧
         promise_state w' out = Some Pending).
  assert (hoare P (p ← initializeToken; add_reaction p (KUpdateToken1 out);; mret out)
            (λ r w', r = out ∧ P w')) as H.
  { unfold P.
    do 2 (apply hoare_bind_keep; [safe_solve | preserves_solve | intros ?]).
    by apply hoare_ret. }
  destruct (H (set_embed (with_token (Some T))
                 (set_promises (λ ps, ps ++ [{| pstate := Pending; reactions := [];
                                                slots := [] |}]) w)))
    as (r & w1 & Heq & -> & (Ht & Htr) & (Hb & Htm) & Hp).
  - unfold P, promise_state, out. simpl. by rewrite lookup_app_r, Nat.sub_diag.
  - exists w1. split; [exact Heq | done].
Qed.

(** The [catch] block of [updateToken] on a promise that is still pending:
    one log entry, the promise rejected, the embed untouched. *)
Lemma updateToken_catch_rejects (w : World) (out : PromiseId) (err : JSValue) :
  promise_state w out = Some Pending →
  promise_state (updateToken_catch out err w).2 out = Some (Rejected err) ∧
  embed (updateToken_catch out err w).2 = embed w ∧
  trace (updateToken_catch out err w).2 =
    trace w ++ [ELogError "Error updating token: " err].
Proof.
  intros Hp. unfold updateToken_catch, mbind, M_bind, emit, modify.
  set (w1 := set_trace _ w).
  destruct (settle_pending w1 out (Rejected err)) as (_ & H1 & H2 & H3 & _).
  - done.
  - by rewrite H1, H2, H3.
Qed.

(** ** The invariant of executions *)

Lemma ran_internal_mono (tr tr' : list Effect) (occ : nat) (m : Message) :
  ran_internal tr occ m → ran_internal (tr ++ tr') occ m.
Proof.
  intros H Hi. destruct (H Hi) as [b Hb]. exists b. apply elem_of_app. by left.
Qed.

Lemma ordered_snoc (tr : list Effect) (e : Effect) :
  not_invoke e → ordered tr → ordered (tr ++ [e]).
Proof.
  intros He Ho i l m occ seen Hi.
  destruct (decide (i < length tr)) as [Hlt|Hge].
  - rewrite lookup_app_l in Hi by done.
    rewrite take_app_le by lia. by eapply Ho.
  - rewrite lookup_app_r in Hi by lia.
    destruct (i - length tr) as [|n] eqn:Hn; simpl in Hi; [|done].
    injection Hi as ->. done.
Qed.

Lemma ordered_snoc_invoke (tr : list Effect) l m occ seen :
  ran_internal tr occ m → ordered tr → ordered (tr ++ [EInvoke l m occ seen]).
Proof.
  intros Hr Ho i l' m' occ' seen' Hi.
  destruct (decide (i < length tr)) as [Hlt|Hge].
  - rewrite lookup_app_l in Hi by done.
    rewrite take_app_le by lia. by eapply Ho.
  - rewrite lookup_app_r in Hi by lia.
    destruct (i - length tr) as [|n] eqn:Hn; simpl in Hi; [|done].
    injection Hi as <- <- <- <-.
    assert (i = length tr) as -> by lia.
    by rewrite take_app_length.
Qed.

Lemma Inv_during_ext (cur : option (nat * Message)) (w w' : World) :
  buses w' = buses w → timers w' = timers w → trace w' = trace w →
  Inv_during cur w → Inv_during cur w'.
Proof.
  intros Hb Ht Htr (H1 & H2 & H3). unfold Inv_during, wired_ok, timers_during.
  rewrite Hb, Ht, Htr. done.
Qed.

Lemma Inv_during_emit (cur : option (nat * Message)) (w : World) (e : Effect) :
  not_invoke e → Inv_during cur w →
  Inv_during cur (set_trace (λ t, t ++ [e]) w).
Proof.
  intros He (H1 & H2 & H3). split; [done|]. split.
  - intros t dl l m occ Ht. simpl in *.
    destruct (H2 t dl l m occ Ht) as [?|?]; [by left | right].
    by apply ran_internal_mono.
  - simpl. by apply ordered_snoc.
Qed.

Lemma remove_first_keeps (ev : TVbrickEvent) (r : Ref) (hs : list Reg) (x : Reg) :
  fn_ref (reg_fn x) ≠ r → x ∈ hs → x ∈ remove_first ev r hs.
Proof.
  intros Hx. induction hs as [|h hs IH]; simpl; [done|].
  intros Hin. apply elem_of_cons in Hin as [->|Hin].
  - destruct (decide _) as [[_ ?]|_]; [done | apply elem_of_cons; by left].
  - destruct (decide _); [done | apply elem_of_cons; right; by apply IH].
Qed.

Lemma internal_regs_ref (x : Reg) :
  x ∈ internal_regs → ∃ ev, fn_ref (reg_fn x) = RInternal ev.
Proof.
  unfold internal_regs. intros H.
  repeat (apply elem_of_cons in H as [->|H]; [by eexists|]).
  by apply elem_of_nil in H.
Qed.

Lemma Inv_during_alter (cur : option (nat * Message)) (w : World) (b : BusId)
    (f : Bus → Bus) :
  (∀ bus x, x ∈ internal_regs → x ∈ handlers bus → x ∈ handlers (f bus)) →
  Inv_during cur w → Inv_during cur (set_buses (alter f b) w).
Proof.
  intros Hf (H1 & H2 & H3). split; [|done].
  intros b' bus Hb x Hx. simpl in Hb.
  destruct (decide (b = b')) as [->|Hne].
  - rewrite list_lookup_alter_eq in Hb.
    destruct (buses w !! b') as [bus0|] eqn:Hb0; [|done].
    simpl in Hb. injection Hb as <-. apply Hf; [done|]. by eapply H1.
  - rewrite list_lookup_alter_ne in Hb by done. by eapply H1.
Qed.

Lemma Inv_during_timer_other (cur : option (nat * Message)) (w : World)
    (tm : Timer) :
  (∀ l m occ, tcode tm = TListener l m occ →
     cur = Some (occ, m) ∨ ran_internal (trace w) occ m) →
  Inv_during cur w → Inv_during cur (set_timers (λ ts, ts ++ [Some tm]) w).
Proof.
  intros Htm (H1 & H2 & H3). split; [done|]. split; [|done].
  intros t dl l m occ Ht. simpl in Ht.
  destruct (decide (t < length (timers w))) as [Hlt|Hge].
  - rewrite lookup_app_l in Ht by done. by eapply H2.
  - rewrite lookup_app_r in Ht by lia.
    destruct (t - length (timers w)) as [|n]; simpl in Ht; [|done].
    injection Ht as ->. by eapply Htm.
Qed.

Lemma Inv_during_timer_clear (cur : option (nat * Message)) (w : World)
    (t : TimerId) :
  Inv_during cur w → Inv_during cur (set_timers (<[t := None]>) w).
Proof.
  intros (H1 & H2 & H3). split; [done|]. split; [|done].
  intros t' dl l m occ Ht. simpl in Ht.
  destruct (decide (t = t')) as [->|Hne].
  - destruct (decide (t' < length (timers w))) as [Hlt|Hge].
    + by rewrite list_lookup_insert_eq in Ht.
    + rewrite list_insert_ge in Ht by lia. by eapply H2.
  - rewrite list_lookup_insert_ne in Ht by done. by eapply H2.
Qed.

(** The remaining goals of [preserves_solve] for the invariant. *)
Ltac inv_side :=
  cbv beta;
  first
    [ assumption
    | apply Inv_during_emit; [exact I | assumption]
    | apply Inv_during_timer_clear; assumption
    | apply Inv_during_timer_other;
      [ let Heq := fresh in
        intros ? ? ? Heq; simpl in Heq;
        first [discriminate Heq | injection Heq as <- <- <-; by left]
      | assumption ]
    | apply Inv_during_alter; [| assumption];
      intros ? ? ? ?; simpl;
      first [ assumption
            | apply elem_of_app; by left
            | apply remove_first_keeps; [|assumption];
              match goal with
              | H : _ ∈ internal_regs |- _ =>
                  destruct (internal_regs_ref _ H) as [? ->]; discriminate
              end ]
    | (eapply Inv_during_ext; [| | | eassumption]); reflexivity ].

#[export] Hint Extern 1 (Inv_during _ _) => inv_side : state_db.
#[export] Hint Extern 1 (Inv _) => unfold Inv in *; inv_side : state_db.


(** ** Loops *)

Lemma for_each_post {A} (I : World → Prop) (E : A → World → Prop)
    (f : A → M unit) (xs : list A) :
  (∀ x, safe I (f x)) → (∀ x, preserves I (f x)) →
  (∀ x, hoare I (f x) (λ _ w, E x w)) →
  (∀ x y, preserves (E y) (f x)) →
  ∀ w, I w → I (for_each f xs w).2 ∧ ∀ x, x ∈ xs → E x (for_each f xs w).2.
Proof.
  intros Hs Hp He Hk. induction xs as [|x xs IH]; intros w Hw.
  - split; [done|]. intros x Hx. by apply elem_of_nil in Hx.
  - simpl. unfold mbind, M_bind.
    destruct (He x w Hw) as ([] & w1 & Heq & HE). rewrite Heq.
    pose proof (Hp x w Hw) as Hw1. rewrite Heq in Hw1. simpl in Hw1.
    destruct (IH w1 Hw1) as [HI Hall]. split; [done|].
    intros y Hy. apply elem_of_cons in Hy as [->|Hy]; [|by apply Hall].
    clear IH Hall.
    assert (preserves (E x) (for_each f xs)) as Hfe
      by (apply preserves_for_each; intros z; apply Hk).
    by apply Hfe.
Qed.

Lemma for_each_establish {A} (Q : World → Prop) (f : A → M unit)
    (xs : list A) (x0 : A) :
  x0 ∈ xs → (∀ x, safe (λ _, True) (f x)) →
  (∀ w, Q (f x0 w).2) → (∀ x, preserves Q (f x)) →
  ∀ w, Q (for_each f xs w).2.
Proof.
  intros Hin Hs H0 Hp w.
  assert (True ∧ ∀ x, x ∈ xs → x = x0 → Q (for_each f xs w).2) as [_ H].
  { apply (for_each_post (λ _, True) (λ x w, x = x0 → Q w)); try done.
    - intros x w' _. destruct (Hs x w' I) as (a & w1 & Heq & _).
      exists a, w1. split; [done|]. intros ->.
      specialize (H0 w'). by rewrite Heq in H0.
    - intros x y w' Hw' ->. apply Hp. by apply Hw'. }
  by apply (H x0).
Qed.

Lemma elem_of_trace_emit (e e' : Effect) (w : World) :
  e ∈ trace w → e ∈ trace (set_trace (λ t, t ++ [e']) w).
Proof. intros H. simpl. apply elem_of_app. by left. Qed.
#[export] Hint Resolve elem_of_trace_emit : state_db.

(** The body of the loop of [dispatch]. *)
Lemma call_fn_safe (b : BusId) (occ : nat) (m : Message) (fn : Fn) :
  safe (λ _, True) (call_fn b occ m fn).
Proof.
  unfold call_fn. destruct (fn_code fn); try destruct m; safe_solve.
  all: try (by apply hoare_ret).
Qed.

Lemma internal_reg_in (ev : TVbrickEvent) :
  is_internal ev = true →
  ∃ r, r ∈ internal_regs ∧ reg_event r = ev ∧ fn_ref (reg_fn r) = RInternal ev.
Proof.
  unfold internal_regs.
  destruct ev; try done; intros _.
  - eexists. split; [apply list_elem_of_here | done].
  - eexists. split; [do 2 apply list_elem_of_further; apply list_elem_of_here | done].
  - eexists. split; [do 3 apply list_elem_of_further; apply list_elem_of_here | done].
  - eexists. split; [do 1 apply list_elem_of_further; apply list_elem_of_here | done].
Qed.

Lemma dispatch_body_during (b : BusId) (occ : nat) (m : Message) (r : Reg) :
  preserves (Inv_during (Some (occ, m)))
    (call_fn b occ m (reg_fn r);; emit (ERan b occ (fn_ref (reg_fn r)))).
Proof. preserves_solve. Qed.

Lemma dispatch_body_ran (b : BusId) (occ : nat) (m : Message) (r : Reg)
    (P : World → Prop) :
  hoare P (call_fn b occ m (reg_fn r);; emit (ERan b occ (fn_ref (reg_fn r))))
    (λ _ w, ERan b occ (fn_ref (reg_fn r)) ∈ trace w).
Proof.
  apply (hoare_weaken _ (λ _, True) _ _
           (λ _ w, ERan b occ (fn_ref (reg_fn r)) ∈ trace w)); [|done|done].
  apply (hoare_bind _ _ _ (λ _ _, True)); [apply call_fn_safe|].
  intros _. apply hoare_modify. intros w _. simpl.
  apply elem_of_app. right. apply list_elem_of_here.
Qed.

Lemma dispatch_Inv (b : BusId) (m : Message) : preserves Inv (dispatch b m).
Proof.
  intros w Hw. unfold dispatch, mbind at 1, M_bind at 1, get_bus, gets at 1.
  destruct (buses w !! b) as [bus|] eqn:Hb; [|done].
  destruct (bus_destroyed bus); [done|].
  unfold mbind, M_bind, gets, modify.
  set (occ := occurrences w). set (w1 := set_occurrences S w).
  set (hs := filter _ (handlers bus)).
  destruct (for_each_post (Inv_during (Some (occ, m)))
              (λ r w', ERan b occ (fn_ref (reg_fn r)) ∈ trace w')
              (λ r, call_fn b occ m (reg_fn r);;
                    emit (ERan b occ (fn_ref (reg_fn r)))) hs) with (w := w1)
    as [(H1 & H2 & H3) Hran].
  - intros r. eapply hoare_safe. apply dispatch_body_ran.
  - intros r. apply dispatch_body_during.
  - intros r. apply dispatch_body_ran.
  - intros r r'. preserves_solve.
  - destruct Hw as (Hw1 & Hw2 & Hw3). split; [done|]. split; [|done].
    intros t dl l m' occ' Ht. right. destruct (Hw2 t dl l m' occ' Ht); done.
  - split; [done|]. split; [|done].
    intros t dl l m' occ' Ht. right.
    destruct (H2 t dl l m' occ' Ht) as [[= -> ->]|Hr]; [|done].
    intros Hint. destruct (internal_reg_in _ Hint) as (r & Hr & Hev & Href).
    exists b. rewrite <- Href. apply Hran.
    apply list_elem_of_filter. split; [done|].
    destruct Hw as (Hw1 & _). by eapply Hw1.
Qed.

Lemma dispatch_Inv_during (b : BusId) (m : Message) :
  preserves (Inv_during None) (dispatch b m).
Proof. apply dispatch_Inv. Qed.

#[export] Hint Resolve dispatch_Inv_during : preserves_db.

Lemma ordered_app (tr new : list Effect) :
  Forall not_invoke new → ordered tr → ordered (tr ++ new).
Proof.
  intros Hn Ho i l m occ seen Hi.
  destruct (decide (i < length tr)) as [Hlt|Hge].
  - rewrite lookup_app_l in Hi by done.
    rewrite take_app_le by lia. by eapply Ho.
  - rewrite lookup_app_r in Hi by lia.
    apply list_elem_of_lookup_2 in Hi.
    rewrite Forall_forall in Hn. by apply Hn in Hi.
Qed.

Lemma fire_Inv (t : TimerId) : preserves Inv (step (Fire t)).
Proof.
  intros w Hw. unfold step, mbind at 1, M_bind at 1, gets at 1.
  destruct (timers w !! t) as [[tm|]|] eqn:Ht; try done.
  unfold mbind at 1, M_bind at 1, gets at 1.
  destruct (Qle_bool (deadline tm) (now w)); [|done].
  assert (Inv (set_timers (<[t := None]>) w)) as Hw1
    by (by apply Inv_during_timer_clear).
  destruct tm as [dl [l m occ | b p s e]].
  - unfold mbind, M_bind, modify, run_timer, invoke, gets, emit, modify. simpl.
    destruct Hw1 as (H1 & H2 & H3). split; [done|]. split.
    + intros t' dl' l' m' occ' Ht'. right.
      destruct (H2 t' dl' l' m' occ' Ht') as [?|Hr]; [done|].
      by apply ran_internal_mono.
    + simpl. apply ordered_snoc_invoke; [|done].
      destruct Hw as (_ & Hw2 & _).
      by destruct (Hw2 t dl l m occ Ht) as [?|?].
  - assert (preserves Inv (run_timer (TAwaitTimeout b p s e))) as Hp
      by (unfold Inv; preserves_solve).
    unfold mbind, M_bind, modify. by apply Hp.
Qed.

Lemma wired_Inv (w : World) : Inv w → Inv (wired w).
Proof.
  intros (H1 & H2 & H3). destruct (wired_rest w) as (_ & _ & Htm & _).
  split; [|split].
  - intros b bus Hb r Hr. rewrite wired_buses in Hb.
    destruct (decide (b < length (buses w))) as [Hlt|Hge].
    + rewrite lookup_app_l in Hb by done. by eapply H1.
    + rewrite lookup_app_r in Hb by lia.
      destruct (b - length (buses w)); simpl in Hb; [|done].
      by injection Hb as <-.
  - intros t dl l m occ Ht. rewrite Htm in Ht. right.
    destruct (H2 t dl l m occ Ht) as [?|Hr]; [done|].
    rewrite wired_trace. by apply ran_internal_mono.
  - rewrite wired_trace. apply ordered_app; [|done].
    repeat constructor.
Qed.

Lemma initialize_Inv : preserves Inv initialize.
Proof.
  intros w Hw. destruct (init (embed w)) as [p|] eqn:Hi.
  - by rewrite (initialize_again w p Hi).
  - rewrite (initialize_unfold w Hi).
    assert (preserves Inv handshake) as Hp
      by (unfold Inv, handshake; preserves_solve).
    apply Hp. by apply wired_Inv.
Qed.

Lemma step_Inv (a : Action) : preserves Inv (step a).
Proof.
  destruct a;
    first [ apply fire_Inv
          | apply dispatch_Inv
          | unfold step; apply preserves_bind;
            [apply initialize_Inv | intros ?; apply preserves_ret]
          | unfold Inv; preserves_solve; fail ].
Qed.

Lemma new_embed_Inv (url : string) (cfg : VbrickEmbedConfig) :
  Inv (new_embed url cfg).
Proof.
  split; [|split]; simpl.
  - intros b bus Hb. done.
  - intros t dl l m occ Ht. done.
  - intros i l m occ seen Hi. done.
Qed.

Lemma run_Inv (acts : list Action) (w : World) : Inv w → Inv (run acts w).
Proof.
  revert w. induction acts as [|a acts IH]; intros w Hw; [done|].
  rewrite run_cons. apply IH. by apply step_Inv.
Qed.

(** ** Delivering a message *)

Lemma dispatch_unfold (w : World) (b : BusId) (bus : Bus) (m : Message) :
  buses w !! b = Some bus → bus_destroyed bus = false →
  dispatch b m w =
    for_each (λ r, call_fn b (occurrences w) m (reg_fn r);;
                   emit (ERan b (occurrences w) (fn_ref (reg_fn r))))
      (filter (λ r, reg_event r = event_of m) (handlers bus))
      (set_occurrences S w).
Proof.
  intros Hb Hl. unfold dispatch, get_bus, mbind, M_bind, gets, modify.
  by rewrite Hb, Hl.
Qed.

Lemma dispatch_dropped (w : World) (b : BusId) (m : Message) :
  bus_destroyed <$> buses w !! b ≠ Some false → dispatch b m w = (Ok tt, w).
Proof.
  intros Hb. unfold dispatch, get_bus, mbind, M_bind, gets.
  destruct (buses w !! b) as [bus|]; [|done].
  simpl in Hb. by destruct (bus_destroyed bus).
Qed.

(** What the listener [r0] of the bus establishes and no listener undoes
    holds after the dispatch. *)
Lemma dispatch_establish (Q : World → Prop) (w : World) (b : BusId) (bus : Bus)
    (m : Message) (r0 : Reg) :
  buses w !! b = Some bus → bus_destroyed bus = false →
  r0 ∈ handlers bus → reg_event r0 = event_of m →
  (∀ w' f, Q w' → Q (set_trace f w')) →
  (∀ occ w', Q (call_fn b occ m (reg_fn r0) w').2) →
  (∀ occ r, preserves Q (call_fn b occ m (reg_fn r))) →
  Q (dispatch b m w).2.
Proof.
  intros Hb Hl Hr0 Hev Htr Hest Hpres.
  rewrite (dispatch_unfold w b bus m Hb Hl).
  apply (for_each_establish Q _ _ r0).
  - by apply list_elem_of_filter.
  - intros r. eapply hoare_safe. apply dispatch_body_ran.
  - intros w'. unfold mbind, M_bind.
    destruct (call_fn_safe b (occurrences w) m (reg_fn r0) w' I)
      as (a & w1 & Heq & _).
    specialize (Hest (occurrences w) w'). rewrite Heq in *. simpl in *.
    by apply Htr.
  - intros r. apply preserves_bind; [apply Hpres|]. intros _.
    apply preserves_modify. intros w'. apply Htr.
Qed.


Lemma no_invoke_since_emit (t0 : list Effect) (w : World) (e : Effect) :
  not_invoke e → no_invoke_since t0 w →
  no_invoke_since t0 (set_trace (λ t, t ++ [e]) w).
Proof.
  intros He (new & Htr & Hnew). exists (new ++ [e]). simpl. split.
  - by rewrite Htr, app_assoc.
  - apply Forall_app. split; [done|]. by constructor.
Qed.

Ltac no_invoke_side :=
  cbv beta;
  first [ assumption
        | apply no_invoke_since_emit; [exact I | assumption] ].

#[export] Hint Extern 1 (no_invoke_since _ _) => no_invoke_side : state_db.

(** Only a timer calls a function of the host page. *)
Lemma step_no_invoke (t0 : list Effect) (a : Action) :
  (∀ t, a ≠ Fire t) → preserves (no_invoke_since t0) (step a).
Proof.
  intros Ha. destruct a; try (by destruct (Ha t)); preserves_solve.
Qed.



Lemma deliver_webcastLoaded (w : World) (b : BusId) (e : Obj) :
  wired_ok w → bus_destroyed <$> buses w !! b = Some false →
  info (exec (Deliver b (MWebcastLoaded e)) w) = Some (delete "status" e).
Proof.
  intros Hw Hb. destruct (buses w !! b) as [bus|] eqn:Hbus; [|done].
  simpl in Hb. injection Hb as Hl.
  set (r0 := {| reg_event := webcastLoaded;
                reg_fn := {| fn_ref := RInternal webcastLoaded;
                             fn_code := CWebcastLoaded |} |}).
  assert (r0 ∈ handlers bus) as Hin.
  { eapply Hw; [done|]. do 1 apply list_elem_of_further. apply list_elem_of_here. }
  unfold exec, step, info.
  apply (dispatch_establish (λ w', _info (embed w') = Some (delete "status" e))
           w b bus _ r0); try done.
  intros occ r. unfold call_fn. preserves_solve.
Qed.

(** ** The failure path of [initialize] *)

Lemma since_emit (t0 : list Effect) (e e' : Effect) (w : World) :
  since t0 e w → since t0 e (set_trace (λ t, t ++ [e']) w).
Proof.
  intros (new & Htr & Hin). exists (new ++ [e']). simpl. split.
  - by rewrite Htr, app_assoc.
  - apply elem_of_app. by left.
Qed.

#[export] Hint Extern 1 (since _ _ _) =>
  cbv beta; first [assumption | apply since_emit; assumption] : state_db.

Lemma dispatch_safe (b : BusId) (m : Message) : safe (λ _, True) (dispatch b m).
Proof.
  intros w _. unfold dispatch, get_bus, mbind at 1, M_bind at 1, gets at 1.
  destruct (buses w !! b) as [bus|]; [|by exists tt, w].
  destruct (bus_destroyed bus); [by exists tt, w|].
  unfold mbind, M_bind, gets, modify.
  eapply (safe_for_each (λ _, True)); [| |done].
  - intros r. eapply hoare_safe. apply dispatch_body_ran.
  - by intros r w' _.
Qed.

Lemma initialize_catch_effects (w : World) (b : BusId) (err : JSValue) :
  eventBus (embed w) = Some b →
  ∃ w', initialize_catch err w = (Ok (Rejected err), w') ∧
        playerStatus w' = Error ∧
        since (trace w) (EPublishError b "initializationFailed") w' ∧
        since (trace w) (EEmitLocalError b "Error loading embed content" err) w' ∧
        (bus_destroyed <$> buses w !! b = Some false →
         since (trace w) (EPost b (OutError "initializationFailed")) w').
Proof.
  intros Hb.
  unfold initialize_catch, this_eventBus, bus_publishError, post, get_bus,
    bus_emitLocalError, emit, mbind, M_bind, gets, modify.
  simpl. rewrite Hb.
  assert (∀ msg w1, playerStatus w1 = Error →
                (∀ e, since (trace w) e w1 → since (trace w) e (dispatch b (MError msg) w1).2)
                ∧ playerStatus (dispatch b (MError msg) w1).2 = Error
                ∧ ∃ w2, dispatch b (MError msg) w1 = (Ok tt, w2)) as Hd.
  { intros msg w1 Hs. split; [|split].
    - intros e He.
      assert (preserves (since (trace w) e) (dispatch b (MError msg))) as Hp
        by preserves_solve.
      by apply Hp.
    - assert (preserves (λ w', _playerStatus (embed w') = Error)
                (dispatch b (MError msg))) as Hp by preserves_solve.
      by apply Hp.
    - destruct (dispatch_safe b (MError msg) w1 I) as ([] & w2 & Heq & _).
      by exists w2. }
  destruct (buses w !! b) as [bus|] eqn:Hbus; [destruct (bus_destroyed bus) eqn:Hl|];
    simpl; rewrite ?Hb, ?Hbus; simpl; rewrite ?Hl; simpl; rewrite ?Hb; simpl;
    match goal with
    | |- context [dispatch b (MError ?msg) ?w1] =>
        destruct (Hd msg w1 eq_refl) as (Hsince & Hstatus & w2 & Heq);
        rewrite Heq in *; simpl in *; exists w2
    end.
  all: split; [reflexivity|]; split; [exact Hstatus|].
  all: repeat split; try (intros [=]); apply Hsince; eexists; (split; [simpl; rewrite <- !app_assoc; reflexivity|]); simpl.
  all: repeat first [by apply list_elem_of_here | apply list_elem_of_further].
Qed.

(** The three causes, from the state the constructor leaves. *)

Ltac in_list := repeat first [apply list_elem_of_here | apply list_elem_of_further].

Lemma failure_unsupported_token (url v i : string) (ty : TokenType)
    (ts : option Q) (wd ht cn : option string) :
  ty ≠ ACCESS_TOKEN →
  failed 0 4 (VStr "Unsupported token type")
    (run [CallInitialize; Microtask; Microtask; Microtask]
       (new_embed url {| token := Some {| type := ty; value := v; issuer := i |};
                         timeoutSeconds := ts; width := wd; height := ht;
                         className := cn |})).
Proof.
  intros Hty.
  destruct ty; try done; destruct ts as [[[|p|p] d]|];
    vm_compute; (repeat split; try reflexivity); in_list.
Qed.

Lemma failure_load_error (url msg : string) (tok : option VbrickSDKToken)
    (ts : option Q) (wd ht cn : option string) :
  token_supported {| token := tok; timeoutSeconds := ts; width := wd; height := ht;
                     className := cn |} = true →
  failed 0 4 (payload_of (MError msg))
    (run [CallInitialize; Microtask; Deliver 0 (MError msg); Microtask; Microtask;
          Microtask]
       (new_embed url {| token := tok; timeoutSeconds := ts; width := wd;
                         height := ht; className := cn |})).
Proof.
  intros Htok. unfold token_supported in Htok. simpl in Htok.
  destruct tok as [[[] v i]|]; try (vm_compute in Htok; discriminate Htok);
    destruct ts as [[[|p|p] d]|];
    vm_compute; (repeat split; try reflexivity); in_list.
Qed.

Lemma fire_unfold (w : World) (t : TimerId) (tm : Timer) :
  timers w !! t = Some (Some tm) → Qle_bool (deadline tm) (now w) = true →
  exec (Fire t) w = (run_timer (tcode tm) (set_timers (<[t := None]>) w)).2.
Proof.
  intros Ht Hle. unfold exec, step, mbind, M_bind, gets, modify.
  by rewrite Ht, Hle.
Qed.

Lemma Qle_bool_refl (x : Q) : Qle_bool x x = true.
Proof. apply Qle_bool_iff. apply Qle_refl. Qed.

Lemma failure_load_timeout (url : string) (tok : option VbrickSDKToken)
    (p d : positive) (wd ht cn : option string) :
  token_supported {| token := tok; timeoutSeconds := Some (Zpos p # d);
                     width := wd; height := ht; className := cn |} = true →
  failed 0 4 timeout_error
    (run [CallInitialize; Microtask; Advance ((Zpos p # d) * 1000); Fire 0;
          Microtask; Microtask; Microtask]
       (new_embed url {| token := tok; timeoutSeconds := Some (Zpos p # d);
                         width := wd; height := ht; className := cn |})).
Proof.
  intros Htok. unfold token_supported in Htok. simpl in Htok.
  destruct tok as [[[] v i]|]; try (vm_compute in Htok; discriminate Htok).
  all: do 4 rewrite run_cons.
  all: match goal with
       | |- failed _ _ _ (run ?rest (exec (Fire 0) ?w2)) =>
           let tm := eval vm_compute in (timers w2 !! 0) in
           let n := eval vm_compute in (now w2) in
           lazymatch tm with
           | Some (Some ?tm') =>
               rewrite (fire_unfold w2 0 tm');
               [ vm_compute; (repeat split; try reflexivity); in_list
               | vm_compute; reflexivity
               | replace (now w2) with n by (vm_compute; reflexivity);
                 apply Qle_bool_refl ]
           end
       end.
Qed.

(** ** Lemmas for the further properties *)

Lemma step_keeps_eventBus_undefined (a : Action) :
  is_initialize a = false →
  preserves (λ w, eventBus (embed w) = None) (step a).
Proof. intros Ha. destruct a; try done; preserves_solve. Qed.

Lemma step_keeps_info_undefined (a : Action) :
  is_loaded a = false → preserves (λ w, _info (embed w) = None) (step a).
Proof.
  intros Ha. destruct a; try done; preserves_solve.
Qed.

Lemma step_keeps_subtitles (a : Action) (s : ISubtitles) :
  is_subtitlesChanged a = false →
  preserves (λ w, _currentSubtitles (embed w) = s) (step a).
Proof. intros Ha. destruct a; try done; preserves_solve. Qed.

Lemma deliver_videoLoaded (w : World) (b : BusId) (e : Obj) :
  wired_ok w → bus_destroyed <$> buses w !! b = Some false →
  info (exec (Deliver b (MVideoLoaded e)) w) = Some e ∧
  playerStatus (exec (Deliver b (MVideoLoaded e)) w) = Paused.
Proof.
  intros Hw Hb. destruct (buses w !! b) as [bus|] eqn:Hbus; [|done].
  simpl in Hb. injection Hb as Hl.
  set (r0 := {| reg_event := videoLoaded;
                reg_fn := {| fn_ref := RInternal videoLoaded;
                             fn_code := CVideoLoaded |} |}).
  assert (r0 ∈ handlers bus) as Hin.
  { eapply Hw; [done|]. apply list_elem_of_here. }
  unfold exec, step, info, playerStatus.
  apply (dispatch_establish
           (λ w', _info (embed w') = Some e ∧ _playerStatus (embed w') = Paused)
           w b bus _ r0); try done.
  intros occ r. unfold call_fn. preserves_solve.
Qed.

Lemma deliver_subtitlesChanged (w : World) (b : BusId) (s : ISubtitles) :
  wired_ok w → bus_destroyed <$> buses w !! b = Some false →
  currentSubtitles (exec (Deliver b (MSubtitlesChanged s)) w) = s.
Proof.
  intros Hw Hb. destruct (buses w !! b) as [bus|] eqn:Hbus; [|done].
  simpl in Hb. injection Hb as Hl.
  set (r0 := {| reg_event := subtitlesChanged;
                reg_fn := {| fn_ref := RInternal subtitlesChanged;
                             fn_code := CSubtitlesChanged |} |}).
  assert (r0 ∈ handlers bus) as Hin.
  { eapply Hw; [done|]. do 3 apply list_elem_of_further. apply list_elem_of_here. }
  unfold exec, step, currentSubtitles.
  apply (dispatch_establish (λ w', _currentSubtitles (embed w') = s)
           w b bus _ r0); try done.
  intros occ r. unfold call_fn. preserves_solve.
Qed.

Lemma handshake_success (url : string) (tok : option VbrickSDKToken)
    (ts : option Q) (wd ht cn : option string) :
  token_supported {| token := tok; timeoutSeconds := ts; width := wd; height := ht;
                     className := cn |} = true →
  loaded 0 tok ts
    (run [CallInitialize; Microtask; Deliver 0 MLoad; Microtask; Microtask;
          Microtask]
       (new_embed url {| token := tok; timeoutSeconds := ts; width := wd;
                         height := ht; className := cn |})).
Proof.
  intros Htok. unfold token_supported in Htok. simpl in Htok.
  destruct tok as [[[] v i]|]; try (vm_compute in Htok; discriminate Htok);
    destruct ts as [[[|p|p] d]|];
    vm_compute; (repeat split; try reflexivity); in_list.
Qed.

Lemma lookup_snoc {A} (l : list A) (y : A) : (l ++ [y]) !! length l = Some y.
Proof. by apply list_lookup_middle. Qed.

(** What [updateToken] queues: the continuation of its first [await], with
    the outcome of [initializeToken] for the new token. *)
Lemma updateToken_queues (w : World) (T : VbrickSDKToken) :
  microtasks (updateToken T w).2 =
    microtasks w ++
      [(KUpdateToken1 (length (promises w)),
        match type T with
        | ACCESS_TOKEN => Fulfilled (VObj {["accessToken" := VStr (value T)]})
        | _ => Rejected (VStr "Unsupported token type")
        end)].
Proof.
  unfold updateToken, new_promise, initializeToken, add_reaction, queue_job,
    mbind, M_bind, mret, M_ret, gets, modify.
  simpl. destruct (type T); simpl; rewrite lookup_snoc; reflexivity.
Qed.

Lemma updateToken_resume1_no_bus (w : World) (out : PromiseId) (tok : JSValue) :
  eventBus (embed w) = None → promise_state w out = Some Pending →
  let w' := (run_job (KUpdateToken1 out) (Fulfilled tok) w).2 in
  let err := TypeError "this.eventBus is undefined" in
  promise_state w' out = Some (Rejected err) ∧ embed w' = embed w ∧
  trace w' = trace w ++ [ELogError "Error updating token: " err].
Proof.
  intros Hb Hp. simpl.
  unfold updateToken_resume1, try_catch, this_eventBus, mbind, M_bind, gets.
  rewrite Hb. simpl. by apply updateToken_catch_rejects.
Qed.

Lemma attached_ok_ext (w w' : World) :
  iframes w' = iframes w → iframe (embed w') = iframe (embed w) →
  init (embed w') = init (embed w) → attached_ok w → attached_ok w'.
Proof. intros H1 H2 H3 H. unfold attached_ok. by rewrite H1, H2, H3. Qed.

Lemma none_attached_ext (w w' : World) :
  iframes w' = iframes w → none_attached w → none_attached w'.
Proof. intros H1 H. unfold none_attached. by rewrite H1. Qed.

#[export] Hint Extern 1 (attached_ok _) =>
  cbv beta; first [assumption
                  | (eapply attached_ok_ext; [| | | eassumption]); reflexivity]
  : state_db.
#[export] Hint Extern 1 (none_attached _) =>
  cbv beta; first [assumption
                  | (eapply none_attached_ext; [| eassumption]); reflexivity]
  : state_db.

Lemma none_attached_ok (w : World) : none_attached w → attached_ok w.
Proof. intros H i f Hi Ha. rewrite (H i f Hi) in Ha. done. Qed.

Lemma for_each_skip {A} (xs : list A) (w : World) :
  for_each (λ _ : A, mret tt) xs w = (Ok tt, w).
Proof.
  induction xs as [|x xs IH]; [done|]. simpl. unfold mbind, M_bind. simpl. apply IH.
Qed.

(** [destroy] on an embed whose two fields are set. *)
Lemma destroy_unfold (w : World) (i : IframeId) (b : BusId) :
  iframe (embed w) = Some i → eventBus (embed w) = Some b →
  destroy w =
    (Ok tt,
     set_embed (with_init None)
       (set_buses (alter (λ bus, {| bus_iframe := bus_iframe bus;
                                    handlers := handlers bus;
                                    bus_destroyed := true |}) b)
          (set_trace (λ t, t ++ [EDestroyBus b])
             (set_trace (λ t, t ++ [ERemoveIframe i])
                (set_iframes (alter detach i) w))))).
Proof.
  intros Hi Hb.
  unfold destroy, this_iframe, this_eventBus, iframe_remove, bus_destroy,
    update_bus, emit, mbind, M_bind, gets, modify.
  rewrite Hi. simpl. rewrite Hb. simpl.
  destruct (unsubscribes (embed w)) as [fns|]; [|done].
  by rewrite for_each_skip.
Qed.

Lemma detach_all (w : World) (i : IframeId) :
  attached_ok w → iframe (embed w) = Some i →
  ∀ j f, alter detach i (iframes w) !! j = Some f → attached f = false.
Proof.
  intros Hw Hi j f Hj.
  destruct (decide (i = j)) as [->|Hne].
  - rewrite list_lookup_alter_eq in Hj.
    destruct (iframes w !! j); [|done]. simpl in Hj. by injection Hj as <-.
  - rewrite list_lookup_alter_ne in Hj by done.
    destruct (attached f) eqn:Ha; [|done].
    destruct (Hw j f Hj Ha) as [Hij _]. congruence.
Qed.

Lemma destroy_attached : preserves attached_ok destroy.
Proof.
  intros w Hw.
  destruct (iframe (embed w)) as [i|] eqn:Hi.
  - destruct (eventBus (embed w)) as [b|] eqn:Hb.
    + rewrite (destroy_unfold w i b Hi Hb). simpl.
      apply none_attached_ok. intros j f Hj. by eapply detach_all.
    + unfold destroy, this_iframe, this_eventBus, iframe_remove, emit,
        mbind, M_bind, gets, modify.
      rewrite Hi. simpl. rewrite Hb. simpl.
      apply none_attached_ok. intros j f Hj. by eapply detach_all.
  - unfold destroy, this_iframe, mbind, M_bind, gets. by rewrite Hi.
Qed.

Lemma initialize_attached : preserves attached_ok initialize.
Proof.
  intros w Hw. destruct (init (embed w)) as [p|] eqn:Hi.
  - by rewrite (initialize_again w p Hi).
  - destruct (initialize_returns w) as (p & _ & Hp).
    destruct (initialize_fields w Hi) as [Hif _].
    assert (iframes (initialize w).2 = iframes (wired w)) as Hfs.
    { rewrite (initialize_unfold w Hi).
      assert (preserves (λ w', iframes w' = iframes (wired w)) handshake) as H
        by (unfold handshake; preserves_solve).
      by apply H. }
    intros i f Hl Ha. rewrite Hfs in Hl.
    assert (iframes (wired w) = iframes w ++ [{| frameborder := "0";
               allowFullScreen := ""; allow := "autoplay";
               iframe_width := or_default (width (config (embed w))) "100%";
               iframe_height := or_default (height (config (embed w))) "100%";
               src := iframeUrl (embed w);
               iframe_className := or_default (className (config (embed w))) "";
               attached := true |}]) as Hw' by (unfold_wired; reflexivity).
    rewrite Hw' in Hl.
    destruct (decide (i < length (iframes w))) as [Hlt|Hge].
    + rewrite lookup_app_l in Hl by done.
      destruct (Hw i f Hl Ha) as [_ Hn]. done.
    + assert (i = length (iframes w)) as ->.
      { apply lookup_lt_Some in Hl. rewrite length_app in Hl. simpl in Hl. lia. }
      split; [done|]. by rewrite Hp.
Qed.

Lemma step_attached (a : Action) : preserves attached_ok (step a).
Proof.
  destruct a;
    first [ unfold step; apply destroy_attached
          | unfold step; apply preserves_bind;
            [apply initialize_attached | intros ?; apply preserves_ret]
          | preserves_solve; fail ].
Qed.

Lemma lookup_alter_handlers (bs : list Bus) (k b : BusId) (f : list Reg → list Reg) :
  bus_destroyed <$> alter (with_handlers f) k bs !! b = bus_destroyed <$> bs !! b.
Proof.
  destruct (decide (k = b)) as [->|Hne].
  - rewrite list_lookup_alter_eq, <- option_fmap_compose.
    by apply option_fmap_ext.
  - rewrite list_lookup_alter_ne; done.
Qed.

Lemma bus_fresh_add (b k : BusId) (w : World) (r : Reg) :
  is_deferred r = false → bus_fresh b w →
  bus_fresh b (set_buses (alter (with_handlers (λ hs, hs ++ [r])) k) w).
Proof.
  intros Hr (bus & Hb & Hl & Hd). unfold bus_fresh, BusId in *.
  cbn [buses set_buses].
  destruct (decide (k = b)) as [->|Hne].
  - exists (with_handlers (λ hs, hs ++ [r]) bus). split; [|split].
    + by rewrite list_lookup_alter_eq, Hb.
    + done.
    + cbn [handlers with_handlers]. rewrite existsb_app, Hd. simpl. by rewrite Hr.
  - exists bus. by rewrite list_lookup_alter_ne.
Qed.

Lemma bus_fresh_ext (b : BusId) (w w' : World) :
  buses w' = buses w → bus_fresh b w → bus_fresh b w'.
Proof. intros H. unfold bus_fresh. by rewrite H. Qed.

#[export] Hint Extern 1 (bus_fresh _ _) =>
  cbv beta;
  first [ assumption
        | apply bus_fresh_add; [reflexivity | assumption]
        | (eapply bus_fresh_ext; [| eassumption]); reflexivity ]
  : state_db.

Lemma destroyed_alter (b k : BusId) (w : World) (f : list Reg → list Reg) (v : bool) :
  bus_destroyed <$> buses w !! b = Some v →
  bus_destroyed <$> buses (set_buses (alter (with_handlers f) k) w) !! b = Some v.
Proof. intros H. cbn [buses set_buses]. by rewrite lookup_alter_handlers. Qed.

#[export] Hint Resolve destroyed_alter : state_db.

Lemma rendered_ok_ext (url : string) (cfg : VbrickEmbedConfig) (w w' : World) :
  iframes w' = iframes w → iframeUrl (embed w') = iframeUrl (embed w) →
  width (config (embed w')) = width (config (embed w)) →
  height (config (embed w')) = height (config (embed w)) →
  className (config (embed w')) = className (config (embed w)) →
  rendered_ok url cfg w → rendered_ok url cfg w'.
Proof.
  intros H1 H2 H3 H4 H5 H. unfold rendered_ok. by rewrite H1, H2, H3, H4, H5.
Qed.

Lemma rendered_ok_alter (url : string) (cfg : VbrickEmbedConfig) (w : World)
    (g : Iframe → Iframe) (i : IframeId) :
  (∀ f, rendered url cfg f → rendered url cfg (g f)) →
  rendered_ok url cfg w → rendered_ok url cfg (set_iframes (alter g i) w).
Proof.
  intros Hg [Hc Hf]. split; [done|]. intros j f Hj. cbn [iframes set_iframes] in Hj.
  unfold IframeId in *.
  destruct (decide (i = j)) as [->|Hne].
  - rewrite list_lookup_alter_eq in Hj.
    destruct (iframes w !! j) as [f0|] eqn:E; [|done].
    simpl in Hj. injection Hj as <-. apply Hg. by eapply Hf.
  - rewrite list_lookup_alter_ne in Hj by done. by eapply Hf.
Qed.

#[export] Hint Extern 1 (rendered_ok _ _ _) =>
  cbv beta;
  first [ assumption
        | apply rendered_ok_alter; [intros ? Hr; exact Hr | assumption]
        | (eapply rendered_ok_ext; [| | | | | eassumption]); reflexivity ]
  : state_db.

Lemma initialize_rendered (url : string) (cfg : VbrickEmbedConfig) :
  preserves (rendered_ok url cfg) initialize.
Proof.
  intros w Hw. destruct (init (embed w)) as [p|] eqn:Hi.
  - by rewrite (initialize_again w p Hi).
  - rewrite (initialize_unfold w Hi).
    assert (preserves (rendered_ok url cfg) handshake) as Hp
      by (unfold handshake; preserves_solve).
    apply Hp. destruct Hw as [(H1 & H2 & H3 & H4) Hf]. split.
    + by rewrite wired_embed.
    + assert (iframes (wired w) = iframes w ++ [{| frameborder := "0";
               allowFullScreen := ""; allow := "autoplay";
               iframe_width := or_default (width (config (embed w))) "100%";
               iframe_height := or_default (height (config (embed w))) "100%";
               src := iframeUrl (embed w);
               iframe_className := or_default (className (config (embed w))) "";
               attached := true |}]) as Hw' by (unfold_wired; reflexivity).
      intros i f Hl. rewrite Hw' in Hl. unfold IframeId in *.
      destruct (decide (i < length (iframes w))) as [Hlt|Hge].
      * rewrite lookup_app_l in Hl by done. by eapply Hf.
      * rewrite lookup_app_r in Hl by lia.
        destruct (i - length (iframes w)); simpl in Hl; [|done].
        injection Hl as <-. unfold rendered. simpl.
        by rewrite H1, H2, H3, H4.
Qed.

Lemma step_rendered (url : string) (cfg : VbrickEmbedConfig) (a : Action) :
  preserves (rendered_ok url cfg) (step a).
Proof.
  destruct a;
    first [ unfold step; apply preserves_bind;
            [apply initialize_rendered | intros ?; apply preserves_ret]
          | preserves_solve; fail ].
Qed.

Lemma bus_publish_effect (w : World) (b : BusId) (ev : string) (d : JSValue) :
  bus_publish b ev d w =
    (Ok tt, set_trace (λ t, t ++ EPublish b ev d :: posted b (OutMsg ev d) w) w).
Proof.
  unfold bus_publish, post, posted, get_bus, emit, mbind, M_bind, gets, modify.
  simpl. unfold BusId in *.
  destruct (buses w !! b) as [bus|]; [destruct (bus_destroyed bus)|];
    simpl; try reflexivity.
  f_equal. destruct w; unfold set_trace; simpl. f_equal.
  by rewrite <- app_assoc.
Qed.

Lemma promise_state_insert_ne (w : World) (p q : PromiseId) (st : PState)
    (pr : Promise) :
  p ≠ q → promise_state w p = Some st →
  promise_state (set_promises (<[q := pr]>) w) p = Some st.
Proof.
  intros Hne H. unfold promise_state in *. simpl.
  unfold PromiseId in *. by rewrite list_lookup_insert_ne.
Qed.

Lemma promise_state_insert_same (w : World) (p q : PromiseId) (st : PState)
    (pr pr' : Promise) :
  promises w !! q = Some pr → pstate pr' = pstate pr →
  promise_state w p = Some st →
  promise_state (set_promises (<[q := pr']>) w) p = Some st.
Proof.
  intros Hq Hst H. destruct (decide (p = q)) as [->|Hne].
  - unfold promise_state in *. simpl. unfold PromiseId in *.
    rewrite list_lookup_insert_eq; [|by eapply lookup_lt_Some].
    rewrite Hq in H. simpl in *. congruence.
  - by apply promise_state_insert_ne.
Qed.

Lemma settle_keeps_settled (p q : PromiseId) (st st' : PState) :
  st ≠ Pending → preserves (λ w, promise_state w p = Some st) (settle q st').
Proof.
  intros Hs w Hw.
  assert (promise_state w q = Some Pending ∨ promise_state w q ≠ Some Pending)
    as [Hq|Hq].
  { destruct (promise_state w q) as [[]|]; auto. }
  - assert (p ≠ q) as Hne by (intros ->; congruence).
    unfold promise_state in Hq.
    destruct (promises w !! q) as [pr|] eqn:Hpr; [|done].
    simpl in Hq. injection Hq as Hq.
    rewrite (settle_unfold w q st' pr Hpr Hq).
    assert (preserves (λ w, promise_state w p = Some st)
              (for_each (λ k, queue_job k st') (reactions pr))) as H
      by (unfold queue_job; preserves_solve).
    apply H. by apply promise_state_insert_ne.
  - by rewrite (settle_settled w q st' Hq).
Qed.

Lemma all_element_keeps_settled (p all : PromiseId) (i : nat) (st st' : PState) :
  st ≠ Pending →
  preserves (λ w, promise_state w p = Some st) (all_element all i st').
Proof.
  intros Hs w Hw. unfold all_element.
  destruct st' as [|v|e]; [done| |by apply settle_keeps_settled].
  unfold mbind, M_bind, gets, modify.
  destruct (promises w !! all) as [pr|] eqn:Hpr; [|done].
  cbn [fst snd].
  set (w1 := set_promises _ w).
  assert (promise_state w1 p = Some st) as Hw1
    by (by eapply promise_state_insert_same).
  destruct (mapM id _); [|done].
  by apply settle_keeps_settled.
Qed.

#[export] Hint Extern 1 (preserves (λ w, promise_state w _ = Some _) (settle _ _)) =>
  apply settle_keeps_settled; assumption : preserves_db.
#[export] Hint Extern 1 (preserves (λ w, promise_state w _ = Some _) (all_element _ _ _)) =>
  apply all_element_keeps_settled; assumption : preserves_db.

Lemma step_keeps_settled (a : Action) (p : PromiseId) (st : PState) :
  st ≠ Pending → preserves (λ w, promise_state w p = Some st) (step a).
Proof.
  intros Hs. destruct a; preserves_solve.
Qed.

Lemma fields_ok_mono (w w' : World) :
  iframe (embed w') = iframe (embed w) →
  eventBus (embed w') = eventBus (embed w) →
  length (iframes w) ≤ length (iframes w') →
  length (buses w) ≤ length (buses w') →
  fields_ok w → fields_ok w'.
Proof.
  intros H1 H2 H3 H4 [Hi Hb]. unfold fields_ok. rewrite H1, H2. split.
  - intros i Hw. specialize (Hi i Hw). lia.
  - intros b Hw. specialize (Hb b Hw). lia.
Qed.

#[export] Hint Extern 1 (fields_ok _) =>
  cbv beta;
  first [ assumption
        | (eapply fields_ok_mono; [| | | | eassumption]);
          [ reflexivity | reflexivity
          | simpl; rewrite ?length_alter, ?length_app; lia
          | simpl; rewrite ?length_alter, ?length_app; lia ] ]
  : state_db.












(** * The claims *)



(** C8. [initializeToken] only allocates a settled promise: fulfilled with
    [undefined] when the configuration has no token, fulfilled with
    [{accessToken: token.value}] when the type of the token is AccessToken,
    rejected with 'Unsupported token type' for every other type.  Nothing
    else changes: no message is published, no listener registered. *)
Theorem initializeToken_outcomes (w : World) :
  ∃ st,
    initializeToken w =
      (Ok (length (promises w)),
       set_promises (λ ps, ps ++ [{| pstate := st; reactions := []; slots := [] |}]) w)
    ∧ trace (initializeToken w).2 = trace w
    ∧ buses (initializeToken w).2 = buses w
    ∧ match token (config (embed w)) with
      | None => st = Fulfilled VUndefined
      | Some t =>
          match type t with
          | ACCESS_TOKEN => st = Fulfilled (VObj {["accessToken" := VStr (value t)]})
          | JWT | GUEST_REGISTRATION => st = Rejected (VStr "Unsupported token type")
          end
      end.
Proof.
  unfold initializeToken, mbind, M_bind, gets.
  destruct (token (config (embed w))) as [t|]; [destruct (type t)|];
    eexists; (split; [reflexivity|]); done.
Qed.

(** C9 (the code departs from it). No execution ever assigns the volume: the
    getter returns [undefined] whatever [volumeChanged] events were
    delivered. *)
Theorem volume_never_assigned (url : string) (cfg : VbrickEmbedConfig)
    (acts : list Action) :
  volume (run acts (new_embed url cfg)) = None.
Proof.
  unfold volume.
  apply (run_preserves (λ w, _volume (embed w) = None) (λ _, True)).
  - intros a _. apply step_keeps_volume.
  - by apply Forall_forall.
  - done.
Qed.

(** C10. On an embed on which [initialize()] was never called, [destroy()]
    throws at [this.iframe.remove()] and changes nothing; once [initialize()]
    has run, [destroy()] returns, and returns again when called twice. *)
Theorem destroy_before_initialize_throws (url : string) (cfg : VbrickEmbedConfig)
    (acts : list Action) :
  existsb is_initialize acts = false →
  let w := run acts (new_embed url cfg) in
  destroy w = (Throw (TypeError "this.iframe is undefined"), w) ∧
  (destroy (initialize w).2).1 = Ok tt ∧
  (destroy (destroy (initialize w).2).2).1 = Ok tt.
Proof.
  intros Hacts w.
  assert (iframe (embed w) = None ∧ init (embed w) = None) as [Hif Hin].
  { apply (run_preserves_bool
             (λ w', iframe (embed w') = None ∧ init (embed w') = None)
             is_initialize); [|done|done].
    intros a Ha. destruct a; try done; preserves_solve; simpl in *; naive_solver. }
  split.
  - unfold destroy, this_iframe, mbind, M_bind, gets. by rewrite Hif.
  - destruct (initialize_fields w Hin) as [Hi Hb].
    destruct (destroy_returns _ _ _ Hi Hb) as (H1 & Hi' & Hb').
    split; [done|].
    by destruct (destroy_returns _ _ _ Hi' Hb') as (H2 & _ & _).
Qed.

Lemma destroy_before_initialize_throws_witness :
  let w := run [CallPlay; CallOn load 1; CallDestroy]
             (new_embed "https://rev/embed" sample_config) in
  destroy w = (Throw (TypeError "this.iframe is undefined"), w) ∧
  (destroy (initialize w).2).1 = Ok tt ∧
  (destroy (destroy (initialize w).2).2).1 = Ok tt.
Proof.
  apply (destroy_before_initialize_throws "https://rev/embed" sample_config
           [CallPlay; CallOn load 1; CallDestroy]).
  reflexivity.
Defined.

(** C2 (the code departs from it). [on(E, L)] registers a fresh arrow that
    wraps [L], never [L] itself, so [off(E, L)] finds no registration with
    the reference [L] and removes nothing: the bus has the same listeners
    after [off] as before it, and [L] is still called for the next
    occurrence of [E]. *)
Theorem off_leaves_listener_registered (url : string) (l : ListenerId)
    (s : PlayerStatus) :
  let w0 := run [CallInitialize; CallOn playerStatusChanged l]
              (new_embed url sample_config) in
  let w1 := exec (CallOff playerStatusChanged l) w0 in
  let w2 := run [Deliver 0 (MPlayerStatusChanged s); Fire 0] w1 in
  buses w1 = buses w0 ∧
  last (trace w2) = Some (EInvoke l (MPlayerStatusChanged s) 0 (embed w2)).
Proof. vm_compute. split; reflexivity. Qed.



(** C4. [updateToken(T)] stores [T] before anything else: when the call
    returns its promise nothing has been published or awaited yet and the
    token is [T].  No later step that is not another [updateToken] changes the
    token, so there is no rollback; and when the awaited confirmation
    rejects with [err] (an [error] event or a timeout of the await), the
    [catch] block logs and the promise of the call is rejected with [err],
    the embed untouched.  From a loaded embed: the confirmation answered by
    an [error] event rejects the call with the payload of the event while
    the token is [T]. *)
Theorem updateToken_applies_then_confirms (w : World) (T : VbrickSDKToken)
    (acts : list Action) :
  existsb is_updateToken acts = false →
  let out := length (promises w) in
  let w1 := (updateToken T w).2 in
  (updateToken T w).1 = Ok out ∧
  token (config (embed w1)) = Some T ∧ trace w1 = trace w ∧
  promise_state w1 out = Some Pending ∧
  token (config (embed (run acts w1))) = Some T ∧
  (∀ w' err, promise_state w' out = Some Pending →
     let w2 := (run_job (KUpdateToken2 out) (Rejected err) w').2 in
     promise_state w2 out = Some (Rejected err) ∧ embed w2 = embed w' ∧
     trace w2 = trace w' ++ [ELogError "Error updating token: " err]) ∧
  (∀ url v i msg,
     let A := {| type := ACCESS_TOKEN; value := v; issuer := i |} in
     let wf := run [CallInitialize; Microtask; Deliver 0 MLoad; Microtask;
                    Microtask; Microtask; CallUpdateToken A; Microtask;
                    Deliver 0 (MError msg); Microtask]
                 (new_embed url sample_config) in
     promise_state wf 6 = Some (Rejected (payload_of (MError msg))) ∧
     token (config (embed wf)) = Some A).
Proof.
  intros Hacts out w1.
  destruct (updateToken_sync w T) as (w1' & Heq & Ht & Htr & _ & _ & Hp).
  subst w1. rewrite Heq. cbn [fst snd].
  split; [reflexivity|]. split; [exact Ht|]. split; [exact Htr|].
  split; [exact Hp|]. split; [|split].
  - apply (run_preserves_bool (λ w', token (config (embed w')) = Some T)
             is_updateToken); [|exact Hacts|exact Ht].
    intros a Ha. by apply step_keeps_token_bool.
  - intros w' err Hw'. by apply updateToken_catch_rejects.
  - intros url v i msg. vm_compute. split; reflexivity.
Qed.

Lemma updateToken_applies_then_confirms_witness :
  let w := run [CallInitialize; Microtask]
             (new_embed "https://rev/embed" sample_config) in
  let T := sample_token ACCESS_TOKEN in
  (updateToken T w).1 = Ok 5 ∧
  token (config (embed (run [Microtask; Deliver 0 (MError "denied"); Microtask]
                          (updateToken T w).2))) = Some T.
Proof.
  pose proof (updateToken_applies_then_confirms
                (run [CallInitialize; Microtask]
                   (new_embed "https://rev/embed" sample_config))
                (sample_token ACCESS_TOKEN)
                [Microtask; Deliver 0 (MError "denied"); Microtask]
                eq_refl) as (H1 & _ & _ & _ & H2 & _).
  split; [exact H1 | exact H2].
Defined.


(** C6. In every reachable state with a bus that is not destroyed, after
    [webcastLoaded] is delivered with payload [e] the cached info is [e]
    without its [status] field: it has no [status], and every other field
    is the field of [e]. *)
Theorem webcastLoaded_caches_without_status (url : string)
    (cfg : VbrickEmbedConfig) (acts : list Action) (b : BusId) (e : Obj) :
  let w := run acts (new_embed url cfg) in
  bus_destroyed <$> buses w !! b = Some false →
  let w' := exec (Deliver b (MWebcastLoaded e)) w in
  info w' = Some (delete "status" e) ∧
  ∀ i, info w' = Some i →
       i !! "status" = None ∧ ∀ k, k ≠ "status" → i !! k = e !! k.
Proof.
  intros w Hb w'.
  assert (Inv w) as (Hwired & _ & _) by apply run_Inv, new_embed_Inv.
  pose proof (deliver_webcastLoaded w b e Hwired Hb) as Hi.
  split; [exact Hi|].
  intros i Hi'. subst w'. rewrite Hi in Hi'. injection Hi' as <-. split.
  - apply lookup_delete_eq.
  - intros k Hk. by apply lookup_delete_ne.
Qed.

Lemma webcastLoaded_caches_without_status_witness :
  let e : Obj := <["status" := VStr "InProgress"]> {["title" := VStr "X"]} in
  let w' := exec (Deliver 0 (MWebcastLoaded e))
              (run [CallInitialize] (new_embed "https://rev/embed" sample_config)) in
  ∃ i, info w' = Some i ∧ i !! "title" = Some (VStr "X") ∧ i !! "status" = None.
Proof.
  intros e w'.
  destruct (webcastLoaded_caches_without_status "https://rev/embed"
              sample_config [CallInitialize] 0 e eq_refl) as [Hi Hfields].
  exists (delete "status" e). split; [exact Hi|].
  destruct (Hfields _ Hi) as [Hs Hk]. split; [|exact Hs].
  rewrite (Hk "title"); [reflexivity | discriminate].
Defined.

(** C7. The function given to [catch] in [initialize], called with [err] on
    an embed whose bus is set, sets the status to [Error], calls
    [publishError('initializationFailed')] (the message is posted when the
    bus is not destroyed) and [emitLocalError] with [err], and returns a
    promise rejected with [err].  Each of the three causes leads there from
    a new embed, for every configuration: an unsupported token type, an
    [error] event before [load], and the timeout of the await of [load];
    then the promise of [initialize()] is rejected with that error, the
    status is [Error], the synthetic error was posted and the local error
    emitted. *)
Theorem handshake_failure_effects :
  (∀ w b err,
     eventBus (embed w) = Some b →
     ∃ w', initialize_catch err w = (Ok (Rejected err), w') ∧
           playerStatus w' = Error ∧
           since (trace w) (EPublishError b "initializationFailed") w' ∧
           since (trace w) (EEmitLocalError b "Error loading embed content" err) w' ∧
           (bus_destroyed <$> buses w !! b = Some false →
            since (trace w) (EPost b (OutError "initializationFailed")) w')) ∧
  (∀ url v i ty ts wd ht cn,
     ty ≠ ACCESS_TOKEN →
     failed 0 4 (VStr "Unsupported token type")
       (run [CallInitialize; Microtask; Microtask; Microtask]
          (new_embed url
             {| token := Some {| type := ty; value := v; issuer := i |};
                timeoutSeconds := ts; width := wd; height := ht;
                className := cn |}))) ∧
  (∀ url msg tok ts wd ht cn,
     token_supported {| token := tok; timeoutSeconds := ts; width := wd;
                        height := ht; className := cn |} = true →
     failed 0 4 (payload_of (MError msg))
       (run [CallInitialize; Microtask; Deliver 0 (MError msg); Microtask;
             Microtask; Microtask]
          (new_embed url {| token := tok; timeoutSeconds := ts; width := wd;
                            height := ht; className := cn |}))) ∧
  (∀ url tok p d wd ht cn,
     token_supported {| token := tok; timeoutSeconds := Some (Zpos p # d);
                        width := wd; height := ht; className := cn |} = true →
     failed 0 4 timeout_error
       (run [CallInitialize; Microtask; Advance ((Zpos p # d) * 1000); Fire 0;
             Microtask; Microtask; Microtask]
          (new_embed url {| token := tok; timeoutSeconds := Some (Zpos p # d);
                            width := wd; height := ht; className := cn |}))).
Proof.
  split; [|split; [|split]].
  - intros w b err. apply initialize_catch_effects.
  - intros url v i ty ts wd ht cn. apply failure_unsupported_token.
  - intros url msg tok ts wd ht cn. apply failure_load_error.
  - intros url tok p d wd ht cn. apply failure_load_timeout.
Qed.

(** * Further properties of the embed *)

(** X1. In every execution, an iframe that is in the page is the one the
    [iframe] field of the embed holds, and the embed is initialized: the
    page never shows two iframes of one embed, and none after [destroy()]. *)
Theorem attached_iframe_is_current (url : string) (cfg : VbrickEmbedConfig)
    (acts : list Action) (i : IframeId) (f : Iframe) :
  let w := run acts (new_embed url cfg) in
  iframes w !! i = Some f → attached f = true →
  iframe (embed w) = Some i ∧ init (embed w) ≠ None.
Proof.
  intros w.
  assert (attached_ok w) as H.
  { apply (run_preserves attached_ok (λ _, True)).
    - intros a _. apply step_attached.
    - by apply Forall_true.
    - intros j g Hj. done. }
  apply H.
Qed.

Lemma attached_iframe_is_current_witness :
  let w := run [CallInitialize; CallDestroy; CallInitialize]
             (new_embed "https://rev/embed" sample_config) in
  iframe (embed w) = Some 1 ∧ init (embed w) ≠ None.
Proof.
  refine (attached_iframe_is_current "https://rev/embed" sample_config
            [CallInitialize; CallDestroy; CallInitialize] 1
            {| frameborder := "0"; allowFullScreen := ""; allow := "autoplay";
               iframe_width := "100%"; iframe_height := "100%";
               src := "https://rev/embed"; iframe_className := "";
               attached := true |} _ _);
    vm_compute; reflexivity.
Defined.

(** X2. Every iframe [render] has created, in any execution, carries the
    fixed attributes, the URL the constructor computed, and the width, height
    and class of the configuration the embed was built with, where an absent
    or empty width or height becomes ["100%"] and an absent or empty class
    leaves the class empty.  [updateToken] and [destroy] change none of
    them. *)
Theorem iframes_rendered_from_config (url : string) (cfg : VbrickEmbedConfig)
    (acts : list Action) (i : IframeId) (f : Iframe) :
  iframes (run acts (new_embed url cfg)) !! i = Some f →
  rendered url cfg f.
Proof.
  assert (rendered_ok url cfg (run acts (new_embed url cfg))) as [_ H].
  { apply (run_preserves (rendered_ok url cfg) (λ _, True)).
    - intros a _. apply step_rendered.
    - by apply Forall_true.
    - split; [done|]. intros j g Hj. done. }
  apply H.
Qed.

Lemma iframes_rendered_from_config_witness :
  rendered "https://rev/embed"
    {| token := None; timeoutSeconds := None; width := Some "640px";
       height := Some ""; className := None |}
    {| frameborder := "0"; allowFullScreen := ""; allow := "autoplay";
       iframe_width := "640px"; iframe_height := "100%";
       src := "https://rev/embed"; iframe_className := "";
       attached := false |}.
Proof.
  refine (iframes_rendered_from_config "https://rev/embed" _
            [CallInitialize; CallUpdateToken (sample_token JWT); CallDestroy]
            0 _ _).
  vm_compute. reflexivity.
Defined.

(** X3. Before the first [initialize()] the field [eventBus] is unset, so
    [play], [pause], [setVolume], [setSubtitles], [on] and [off] each throw
    the [TypeError] of a call on [undefined] and change nothing. *)
Theorem commands_before_initialize_throw (url : string) (cfg : VbrickEmbedConfig)
    (acts : list Action) :
  existsb is_initialize acts = false →
  let w := run acts (new_embed url cfg) in
  let e := Throw (TypeError "this.eventBus is undefined") in
  play w = (e, w) ∧ pause w = (e, w) ∧
  (∀ v, setVolume v w = (e, w)) ∧ (∀ s, setSubtitles s w = (e, w)) ∧
  (∀ ev l, on ev l w = (e, w)) ∧ (∀ ev l, off ev l w = (e, w)).
Proof.
  intros Hacts w e.
  assert (eventBus (embed w) = None) as Hb.
  { apply (run_preserves_bool (λ w', eventBus (embed w') = None) is_initialize);
      [|done|done].
    intros a Ha. by apply step_keeps_eventBus_undefined. }
  unfold play, pause, setVolume, setSubtitles, on, off, this_eventBus,
    mbind, M_bind, gets.
  rewrite Hb. done.
Qed.

Lemma commands_before_initialize_throw_witness :
  let w := run [CallUpdateToken (sample_token ACCESS_TOKEN); Microtask]
             (new_embed "https://rev/embed" sample_config) in
  play w = (Throw (TypeError "this.eventBus is undefined"), w).
Proof.
  pose proof (commands_before_initialize_throw "https://rev/embed" sample_config
                [CallUpdateToken (sample_token ACCESS_TOKEN); Microtask]
                eq_refl) as (H & _).
  exact H.
Defined.

(** X4. On an embed whose [eventBus] is set, each of the four commands
    returns, publishes exactly its one message ([playVideo], [pauseVideo],
    [setVolume] with [{volume}], [setSubtitles] with the subtitles) and
    touches nothing else: the cached [volume] and [currentSubtitles] are not
    updated by the command itself. *)
Theorem commands_publish (w : World) (b : BusId) :
  eventBus (embed w) = Some b →
  let sent ev d :=
    (Ok tt,
     set_trace (λ t, t ++ EPublish b ev d :: posted b (OutMsg ev d) w) w) in
  play w = sent "playVideo" VUndefined ∧
  pause w = sent "pauseVideo" VUndefined ∧
  (∀ v, setVolume v w = sent "setVolume" (VObj {["volume" := VNum v]}) ∧
        volume (setVolume v w).2 = volume w) ∧
  (∀ s, setSubtitles s w = sent "setSubtitles" (subtitles_value s) ∧
        currentSubtitles (setSubtitles s w).2 = currentSubtitles w).
Proof.
  intros Hb sent.
  assert (∀ ev d, (b' ← this_eventBus; bus_publish b' ev d) w = sent ev d) as H.
  { intros ev d. unfold this_eventBus, mbind, M_bind, gets. rewrite Hb.
    cbn [fst snd]. apply bus_publish_effect. }
  split; [apply H|]. split; [apply H|]. split.
  - intros v. unfold setVolume. by rewrite H.
  - intros s. unfold setSubtitles. by rewrite H.
Qed.

Lemma commands_publish_witness :
  let w := run [CallInitialize] (new_embed "https://rev/embed" sample_config) in
  volume (setVolume 0.5 w).2 = volume w.
Proof.
  pose proof (commands_publish
                (run [CallInitialize] (new_embed "https://rev/embed" sample_config))
                0 ltac:(vm_compute; reflexivity)) as (_ & _ & H & _).
  exact (proj2 (H 0.5%Q)).
Defined.

(** X5. [videoLoaded], delivered in any reachable state to a bus that is not
    destroyed, stores its whole payload as [info] and sets the status to
    [Paused]; [isLive] then reads the [isLive] entry of that payload. *)
Theorem videoLoaded_caches_payload (url : string) (cfg : VbrickEmbedConfig)
    (acts : list Action) (b : BusId) (e : Obj) :
  let w := run acts (new_embed url cfg) in
  bus_destroyed <$> buses w !! b = Some false →
  let w' := exec (Deliver b (MVideoLoaded e)) w in
  info w' = Some e ∧ playerStatus w' = Paused ∧ isLive w' = e !! "isLive".
Proof.
  intros w Hb w'.
  assert (Inv w) as (Hwired & _ & _) by apply run_Inv, new_embed_Inv.
  destruct (deliver_videoLoaded w b e Hwired Hb) as [Hi Hs].
  split; [exact Hi|]. split; [exact Hs|].
  unfold isLive. subst w'. by rewrite Hi.
Qed.

Lemma videoLoaded_caches_payload_witness :
  let e : Obj := {["isLive" := VBool false]} in
  let w' := exec (Deliver 0 (MVideoLoaded e))
              (run [CallInitialize] (new_embed "https://rev/embed" sample_config)) in
  info w' = Some e ∧ playerStatus w' = Paused ∧ isLive w' = e !! "isLive".
Proof.
  exact (videoLoaded_caches_payload "https://rev/embed" sample_config
           [CallInitialize] 0 {["isLive" := VBool false]}
           ltac:(vm_compute; reflexivity)).
Defined.

(** X6. [currentSubtitles] is [{enabled: false}] until a [subtitlesChanged]
    event is delivered, and after one is delivered to a bus that is not
    destroyed it is the payload of that event. *)
Theorem subtitles_cache (url : string) (cfg : VbrickEmbedConfig)
    (acts : list Action) :
  let w := run acts (new_embed url cfg) in
  (existsb is_subtitlesChanged acts = false →
   currentSubtitles w = {| language := None; enabled := false |}) ∧
  ∀ b s, bus_destroyed <$> buses w !! b = Some false →
         currentSubtitles (exec (Deliver b (MSubtitlesChanged s)) w) = s.
Proof.
  intros w. split.
  - intros Hacts.
    apply (run_preserves_bool
             (λ w', _currentSubtitles (embed w') =
                    {| language := None; enabled := false |})
             is_subtitlesChanged); [|done|done].
    intros a Ha. by apply step_keeps_subtitles.
  - intros b s Hb.
    assert (Inv w) as (Hwired & _ & _) by apply run_Inv, new_embed_Inv.
    by apply deliver_subtitlesChanged.
Qed.

Lemma subtitles_cache_witness :
  let w := run [CallInitialize; CallSetSubtitles {| language := Some "en";
                                                    enabled := true |}]
             (new_embed "https://rev/embed" sample_config) in
  let s := {| language := Some "en"; enabled := true |} in
  currentSubtitles w = {| language := None; enabled := false |} ∧
  currentSubtitles (exec (Deliver 0 (MSubtitlesChanged s)) w) = s.
Proof.
  pose proof (subtitles_cache "https://rev/embed" sample_config
                [CallInitialize; CallSetSubtitles {| language := Some "en";
                                                     enabled := true |}])
    as [H1 H2].
  split.
  - exact (H1 eq_refl).
  - exact (H2 0 _ ltac:(vm_compute; reflexivity)).
Defined.

(** X7. [isLive] reads the cached [info]: it is [undefined] as long as no
    [videoLoaded] or [webcastLoaded] event was delivered, and after a
    [webcastLoaded] it is the [isLive] entry of the payload (removing
    [status] does not remove it). *)
Theorem isLive_reads_cached_info (url : string) (cfg : VbrickEmbedConfig)
    (acts : list Action) :
  let w := run acts (new_embed url cfg) in
  (existsb is_loaded acts = false → info w = None ∧ isLive w = None) ∧
  ∀ b e, bus_destroyed <$> buses w !! b = Some false →
         isLive (exec (Deliver b (MWebcastLoaded e)) w) = e !! "isLive".
Proof.
  intros w. split.
  - intros Hacts.
    assert (info w = None) as Hi.
    { apply (run_preserves_bool (λ w', _info (embed w') = None) is_loaded);
        [|done|done].
      intros a Ha. by apply step_keeps_info_undefined. }
    split; [exact Hi|]. unfold isLive. by rewrite Hi.
  - intros b e Hb.
    assert (Inv w) as (Hwired & _ & _) by apply run_Inv, new_embed_Inv.
    unfold isLive. rewrite (deliver_webcastLoaded w b e Hwired Hb). simpl.
    by apply lookup_delete_ne.
Qed.

Lemma isLive_reads_cached_info_witness :
  let w := run [CallInitialize; Microtask; Deliver 0 MLoad]
             (new_embed "https://rev/embed" sample_config) in
  let e : Obj := <["status" := VStr "Started"]> {["isLive" := VBool true]} in
  isLive w = None ∧
  isLive (exec (Deliver 0 (MWebcastLoaded e)) w) = e !! "isLive".
Proof.
  pose proof (isLive_reads_cached_info "https://rev/embed" sample_config
                [CallInitialize; Microtask; Deliver 0 MLoad]) as [H1 H2].
  split.
  - exact (proj2 (H1 eq_refl)).
  - exact (H2 0 _ ltac:(vm_compute; reflexivity)).
Defined.



(** X9. [getEmbedQuery] returns the thirteen keys in the order of the
    source.  With a token [tk] is [true] and [popupAuth] is the boolean
    [false]; without a token [tk] is [false] and [popupAuth] is one of the
    strings ["true"] and ["false"], ["true"] exactly when the option is
    [true]. *)
Theorem getEmbedQuery_flags (config : VbrickEmbedConfig)
    (options : VbrickEmbedQueryOptions) :
  let q := getEmbedQuery config options in
  q.*1 = ["tk"; "popupAuth"; "accent"; "autoplay"; "forceClosedCaptions";
          "loopVideo"; "noCc"; "noCenterButtons"; "noChapters"; "noFullscreen";
          "noPlayBar"; "noSettings"; "startAt"] ∧
  (token config ≠ None →
   query_get q "tk" = Some (VBool true) ∧
   query_get q "popupAuth" = Some (VBool false)) ∧
  (token config = None →
   query_get q "tk" = Some (VBool false) ∧
   (popupAuth options = Some true → query_get q "popupAuth" = Some (VStr "true")) ∧
   (popupAuth options ≠ Some true → query_get q "popupAuth" = Some (VStr "false"))).
Proof.
  intros q. split; [reflexivity|]. subst q.
  unfold query_get, getEmbedQuery. split.
  - intros Ht. destruct (token config) eqn:E; [|done]. split; reflexivity.
  - intros ->. split; [reflexivity|]. split.
    + intros ->. reflexivity.
    + intros Hp. by destruct (popupAuth options) as [[]|].
Qed.

Lemma getEmbedQuery_flags_witness :
  let options := {| popupAuth := Some true; accentColor := None;
                    autoplay := None; forcedCaptions := None;
                    playInLoop := None; hideSubtitles := None;
                    hideOverlayControls := None; hideChapters := None;
                    hideFullscreen := None; hidePlayControls := None;
                    hideSettings := None; startAt := None |} in
  query_get (getEmbedQuery sample_config options) "popupAuth"
    = Some (VStr "true") ∧
  query_get (getEmbedQuery {| token := Some (sample_token JWT);
                              timeoutSeconds := None; width := None;
                              height := None; className := None |} options)
    "popupAuth" = Some (VBool false).
Proof.
  intros options. split.
  - pose proof (getEmbedQuery_flags sample_config options) as (_ & _ & H).
    exact (proj1 (proj2 (H eq_refl)) eq_refl).
  - pose proof (getEmbedQuery_flags
                  {| token := Some (sample_token JWT); timeoutSeconds := None;
                     width := None; height := None; className := None |}
                  options) as (_ & H & _).
    apply H. discriminate.
Defined.

(** X10. A listener of the host page is never called by the embed during a
    call of one of its methods, a promise job or the delivery of an event:
    in an execution in which no timer runs, no listener is called. *)
Theorem listeners_only_called_by_timers (url : string) (cfg : VbrickEmbedConfig)
    (acts : list Action) :
  existsb is_fire acts = false →
  Forall not_invoke (trace (run acts (new_embed url cfg))).
Proof.
  intros Hacts.
  assert (no_invoke_since [] (run acts (new_embed url cfg))) as (new & Htr & Hn).
  { apply (run_preserves_bool (no_invoke_since []) is_fire); [|done|].
    - intros a Ha. apply step_no_invoke. intros t ->. done.
    - exists []. split; [done | constructor]. }
  by rewrite Htr.
Qed.

Lemma listeners_only_called_by_timers_witness :
  Forall not_invoke
    (trace (run [CallInitialize; CallOn playerStatusChanged 7;
                 Deliver 0 (MPlayerStatusChanged Playing)]
              (new_embed "https://rev/embed" sample_config))).
Proof.
  exact (listeners_only_called_by_timers "https://rev/embed" sample_config
           [CallInitialize; CallOn playerStatusChanged 7;
            Deliver 0 (MPlayerStatusChanged Playing)] eq_refl).
Defined.



(** X12. [updateToken(T)] that fails before it publishes: with a token
    whose type is not [ACCESS_TOKEN], or with an access token on an embed
    that was never initialized, the token is stored all the same, nothing is
    published, the error is logged once, and the promise of the call is
    rejected with ['Unsupported token type'], respectively with the
    [TypeError] of the call on the unset [eventBus]. *)
Theorem updateToken_fails_before_publishing (w : World) (T : VbrickSDKToken) :
  microtasks w = [] →
  let out := length (promises w) in
  let w2 := exec Microtask (exec (CallUpdateToken T) w) in
  let fails err :=
    promise_state w2 out = Some (Rejected err) ∧
    token (config (embed w2)) = Some T ∧
    trace w2 = trace w ++ [ELogError "Error updating token: " err] in
  (type T ≠ ACCESS_TOKEN → fails (VStr "Unsupported token type")) ∧
  (type T = ACCESS_TOKEN → eventBus (embed w) = None →
   fails (TypeError "this.eventBus is undefined")).
Proof.
  intros Hq out w2 fails.
  destruct (updateToken_sync w T) as (w1 & Heq & Ht & Htr & _ & _ & Hp).
  pose proof (updateToken_queues w T) as Hq1. rewrite Heq, Hq in Hq1.
  cbn [fst snd app] in Hq1.
  assert (exec (CallUpdateToken T) w = w1) as Hw1.
  { unfold exec, step, mbind, M_bind. by rewrite Heq. }
  assert (eventBus (embed w) = None → eventBus (embed w1) = None) as Hb1.
  { intros Hb. rewrite <- Hw1.
    by apply (step_keeps_eventBus_undefined (CallUpdateToken T)). }
  set (w1' := set_microtasks (λ _, []) w1).
  assert (∀ st, microtasks w1 = [(KUpdateToken1 out, st)] →
                w2 = (run_job (KUpdateToken1 out) st w1').2) as Hw2.
  { intros st Hm. subst w2. rewrite Hw1.
    unfold exec, step, mbind, M_bind, gets, modify. by rewrite Hm. }
  assert (promise_state w1' out = Some Pending) as Hp' by exact Hp.
  split.
  - intros Hty.
    assert (microtasks w1 =
              [(KUpdateToken1 out, Rejected (VStr "Unsupported token type"))])
      as Hm by (rewrite Hq1; by destruct (type T)).
    unfold fails. rewrite (Hw2 _ Hm).
    destruct (updateToken_catch_rejects w1' out
                (VStr "Unsupported token type") Hp') as (H1 & H2 & H3).
    cbn [run_job updateToken_resume1].
    rewrite H1, H2, H3. by rewrite <- Htr.
  - intros Hty Hb.
    assert (microtasks w1 =
              [(KUpdateToken1 out,
                Fulfilled (VObj {["accessToken" := VStr (value T)]}))])
      as Hm by (rewrite Hq1; by rewrite Hty).
    unfold fails. rewrite (Hw2 _ Hm).
    destruct (updateToken_resume1_no_bus w1' out
                (VObj {["accessToken" := VStr (value T)]}) (Hb1 Hb) Hp')
      as (H1 & H2 & H3).
    rewrite H1, H2, H3. by rewrite <- Htr.
Qed.

Lemma updateToken_fails_before_publishing_witness :
  let w := run [CallInitialize; Microtask; Deliver 0 MLoad; Microtask;
                Microtask; Microtask]
             (new_embed "https://rev/embed" sample_config) in
  let w2 := exec Microtask (exec (CallUpdateToken (sample_token JWT)) w) in
  promise_state w2 (length (promises w))
    = Some (Rejected (VStr "Unsupported token type")) ∧
  token (config (embed w2)) = Some (sample_token JWT) ∧
  trace w2 = trace w ++ [ELogError "Error updating token: "
                           (VStr "Unsupported token type")].
Proof.
  pose proof (updateToken_fails_before_publishing
                (run [CallInitialize; Microtask; Deliver 0 MLoad; Microtask;
                      Microtask; Microtask]
                   (new_embed "https://rev/embed" sample_config))
                (sample_token JWT) ltac:(vm_compute; reflexivity)) as [H _].
  apply H. discriminate.
Defined.

(** X13. [initialize()] resolves on [load], not on the confirmation of the
    token: once [load] has arrived (and the token, if any, is an access
    token) the promise of [initialize()] is fulfilled with [undefined],
    [authenticated] has been posted with the token and the confirmation is
    awaited by a promise the [then] callback does not return.  Whatever
    happens afterwards (an [error] event, the timeout of that await, a
    [destroy()]), the promise of [initialize()] stays fulfilled. *)
Theorem initialize_resolves_on_load (url : string) (tok : option VbrickSDKToken)
    (ts : option Q) (wd ht cn : option string) (acts : list Action) :
  token_supported {| token := tok; timeoutSeconds := ts; width := wd; height := ht;
                     className := cn |} = true →
  let w := run [CallInitialize; Microtask; Deliver 0 MLoad; Microtask; Microtask;
                Microtask]
             (new_embed url {| token := tok; timeoutSeconds := ts; width := wd;
                               height := ht; className := cn |}) in
  loaded 0 tok ts w ∧
  promise_state (run acts w) 4 = Some (Fulfilled VUndefined).
Proof.
  intros Htok w.
  assert (loaded 0 tok ts w) as Hl
    by exact (handshake_success url tok ts wd ht cn Htok).
  clearbody w. split; [exact Hl|].
  destruct Hl as (_ & Hp & _).
  apply (run_preserves (λ w', promise_state w' 4 = Some (Fulfilled VUndefined))
           (λ _, True)); [|by apply Forall_true|exact Hp].
  intros a _. by apply step_keeps_settled.
Qed.

Lemma initialize_resolves_on_load_witness :
  promise_state
    (run [Deliver 0 (MError "denied"); Microtask; Microtask; CallDestroy]
       (run [CallInitialize; Microtask; Deliver 0 MLoad; Microtask; Microtask;
             Microtask]
          (new_embed "https://rev/embed"
             {| token := Some (sample_token ACCESS_TOKEN);
                timeoutSeconds := Some 30%Q; width := None; height := None;
                className := None |}))) 4
  = Some (Fulfilled VUndefined).
Proof.
  exact (proj2 (initialize_resolves_on_load "https://rev/embed"
                  (Some (sample_token ACCESS_TOKEN)) (Some 30%Q) None None None
                  [Deliver 0 (MError "denied"); Microtask; Microtask; CallDestroy]
                  ltac:(vm_compute; reflexivity))).
Defined.




